(** * The per-mode ADMM sub-problem solver of [src/admm.py]

    A shallow embedding of the class [CPDADMM] and of its [__call__] method,
    over a model of the numpy operations the method uses.

    - Scalars are abstract ([Scalar]): the solver is written once and read
      at IEEE binary64 ([float], what [np.float64] is) and at the reals
      (exact arithmetic, for the algebraic facts).
    - A 2-D [np.ndarray] is its run-time shape and its entries: the shape
      checks of [@] and the broadcasting of [+], [-] are numpy's.
    - Exceptions are the [Raised] outcome; the [while True] loop runs on
      fuel, and [OutOfFuel] is the loop that has not stopped yet.
    - For the claims about aliasing, the same method is written a second
      time over a store of array buffers, and proved to refine the first. *)

From Stdlib Require Import List ZArith Lia Bool Arith String.
From Stdlib Require Import Reals Lra.
From Stdlib Require Import Floats.
Import ListNotations.

Set Implicit Arguments.

(** ** Outcomes: a returned value, a raised exception, or no answer yet *)

Inductive exn : Type :=
| ValueError      (* numpy: operands could not be broadcast / matmul mismatch *)
| LinAlgError     (* numpy.linalg: not square, or singular *)
| ProxError (tag : string)   (* whatever the proximal dispatcher raises *)
| Dangling.                 (* the store model only: a handle to no buffer *)

Inductive outcome (A : Type) : Type :=
| Ok (a : A)
| Raised (e : exn)
| OutOfFuel.

Arguments Ok {A} a.
Arguments Raised {A} e.
Arguments OutOfFuel {A}.

Definition bind {A B : Type} (m : outcome A) (k : A -> outcome B) : outcome B :=
  match m with
  | Ok a => k a
  | Raised e => Raised e
  | OutOfFuel => OutOfFuel
  end.

Notation "x <- m ;; k" := (bind m (fun x => k))
  (at level 61, m at next level, right associativity).

(** ** Scalars *)

Class Scalar (T : Type) : Type := {
  s0 : T;
  s1 : T;
  sadd : T -> T -> T;
  ssub : T -> T -> T;
  smul : T -> T -> T;
  sdiv : T -> T -> T;
  ssqrt : T -> T;
  sltb : T -> T -> bool;
  s_of_nat : nat -> T   (* a Python int used in float arithmetic *)
}.

(** [np.float64]: IEEE 754 binary64, the kernel's primitive floats. *)
#[export] Instance float_scalar : Scalar float := {|
  s0 := 0%float;
  s1 := 1%float;
  sadd := PrimFloat.add;
  ssub := PrimFloat.sub;
  smul := PrimFloat.mul;
  sdiv := PrimFloat.div;
  ssqrt := PrimFloat.sqrt;
  sltb := PrimFloat.ltb;
  s_of_nat := fun n => PrimFloat.of_uint63 (Uint63.of_Z (Z.of_nat n))
|}.

(** Exact real arithmetic. *)
Definition Rltb (x y : R) : bool := if Rlt_dec x y then true else false.

#[export] Instance real_scalar : Scalar R := {|
  s0 := 0%R;
  s1 := 1%R;
  sadd := Rplus;
  ssub := Rminus;
  smul := Rmult;
  sdiv := Rdiv;
  ssqrt := R_sqrt.sqrt;
  sltb := Rltb;
  s_of_nat := INR
|}.

(** ** numpy *)

Section Numpy.

Context {T : Type} `{Scalar T}.

(** A 2-D array: [a.shape = (nrows, ncols)] and [a[i, j] = item a i j]. *)
Record ndarray : Type := NdArray {
  nrows : nat;
  ncols : nat;
  item : nat -> nat -> T
}.

Definition shape (a : ndarray) : nat * nat := (nrows a, ncols a).

(** [f 0 + f 1 + ... + f (n-1)], accumulated from the left. *)
Fixpoint sum_upto (n : nat) (f : nat -> T) : T :=
  match n with
  | O => s0
  | S m => sadd (sum_upto m f) (f m)
  end.

(** [a.T] *)
Definition np_T (a : ndarray) : ndarray :=
  NdArray (ncols a) (nrows a) (fun i j => item a j i).

(** [a @ b]: the inner dimensions must agree. *)
Definition matmul (a b : ndarray) : outcome ndarray :=
  if ncols a =? nrows b then
    Ok (NdArray (nrows a) (ncols b)
          (fun i j => sum_upto (ncols a) (fun k => smul (item a i k) (item b k j))))
  else Raised ValueError.

(** [np.trace(a)]: the sum of the main diagonal, of any 2-D array. *)
Definition np_trace (a : ndarray) : T :=
  sum_upto (Nat.min (nrows a) (ncols a)) (fun i => item a i i).

(** [np.eye(n)] *)
Definition np_eye (n : nat) : ndarray :=
  NdArray n n (fun i j => if i =? j then s1 else s0).

(** [c * a] for a scalar [c]. *)
Definition scalar_mul (c : T) (a : ndarray) : ndarray :=
  NdArray (nrows a) (ncols a) (fun i j => smul c (item a i j)).

(** Broadcasting of one axis: equal lengths, or one of them is 1. *)
Definition bdim (m n : nat) : option nat :=
  if m =? n then Some m
  else if m =? 1 then Some n
  else if n =? 1 then Some m
  else None.

(** The index read along an axis of length [m]: a length-1 axis is repeated. *)
Definition bidx (m i : nat) : nat := if m =? 1 then 0 else i.

Definition broadcast2 (f : T -> T -> T) (a b : ndarray) : outcome ndarray :=
  match bdim (nrows a) (nrows b), bdim (ncols a) (ncols b) with
  | Some r, Some c =>
      Ok (NdArray r c
            (fun i j => f (item a (bidx (nrows a) i) (bidx (ncols a) j))
                          (item b (bidx (nrows b) i) (bidx (ncols b) j))))
  | _, _ => Raised ValueError
  end.

(** [a + b] and [a - b] on arrays. *)
Definition np_add : ndarray -> ndarray -> outcome ndarray := broadcast2 sadd.
Definition np_sub : ndarray -> ndarray -> outcome ndarray := broadcast2 ssub.

(** [la.norm(a)]: the Frobenius norm, [sqrt(dot(x, x))] of the ravelled
    array [x]. *)
Definition sum_squares (a : ndarray) : T :=
  sum_upto (nrows a * ncols a)
    (fun k => let x := item a (k / ncols a) (k mod ncols a) in smul x x).

Definition la_norm (a : ndarray) : T := ssqrt (sum_squares a).

(** The rows of an array, for reading results. *)
Definition to_rows (a : ndarray) : list (list T) :=
  map (fun i => map (fun j => item a i j) (seq 0 (ncols a))) (seq 0 (nrows a)).

(** An array from its rows and its declared shape. *)
Definition of_rows (r c : nat) (rows : list (list T)) : ndarray :=
  NdArray r c (fun i j => nth j (nth i rows []) s0).

End Numpy.

Arguments ndarray T : clear implicits.

(** ** A model of [numpy.linalg.inv]

    [la.inv] raises [LinAlgError] on an array that is not square and on a
    singular one, and returns an array of the shape of its argument.  The
    solver below takes the routine as a parameter; [inv_cofactor] is the
    inverse by cofactors, the instance the concrete runs use. *)

Section Inverse.

Context {T : Type} `{Scalar T}.
Variable is_zero : T -> bool.

Definition skip (p i : nat) : nat := if i <? p then i else S i.

(** The entries left when row [p] and column [q] are deleted. *)
Definition minor (a : nat -> nat -> T) (p q : nat) : nat -> nat -> T :=
  fun i j => a (skip p i) (skip q j).

Definition alt_sign (k : nat) (x : T) : T :=
  if Nat.even k then x else ssub s0 x.

(** Laplace expansion along the first row of the leading [n] by [n] block. *)
Fixpoint det (n : nat) (a : nat -> nat -> T) : T :=
  match n with
  | O => s1
  | S m => sum_upto (S m) (fun j => alt_sign j (smul (a 0 j) (det m (minor a 0 j))))
  end.

Definition inv_cofactor (a : ndarray T) : outcome (ndarray T) :=
  if negb (nrows a =? ncols a) then Raised LinAlgError
  else
    let n := nrows a in
    let d := det n (item a) in
    if is_zero d then Raised LinAlgError
    else Ok (NdArray n n
               (fun i j => sdiv (alt_sign (i + j) (det (pred n) (minor (item a) j i))) d)).

End Inverse.

(** ** The solver object *)

(** A reference to an array object: the buffer it reads, and whether it is
    the transposed view of that buffer ([a.T] shares the memory of [a]). *)
Record handle : Type := Handle {
  buf : nat;
  transposed : bool
}.

Section Solver.

Context {T : Type} `{Scalar T}.

(** The dataclass [CPDADMM].  The first five fields are set by the
    generated [__init__]; the other four are declared [field(init=False)]
    and hold nothing until an assignment gives them a value. *)
Record CPDADMM : Type := MkCPDADMM {
  tensor_mode : Z;
  constraint : string;
  hyperparams : list (string * T);
  tol_error : T;
  n_iters : Z;
  factor_mat_0 : option handle;
  dual_var_0 : option handle;
  factor : option handle;
  dual_var : option handle
}.

(** The generated [__init__]: it stores its arguments, [n_iters] defaults
    to [-1], and there is no [__post_init__]. *)
Definition CPDADMM_init (tensor_mode : Z) (constraint : string)
    (hyperparams : list (string * T)) (tol_error : T) (n_iters : option Z)
  : outcome CPDADMM :=
  Ok {| tensor_mode := tensor_mode;
        constraint := constraint;
        hyperparams := hyperparams;
        tol_error := tol_error;
        n_iters := match n_iters with Some n => n | None => (-1)%Z end;
        factor_mat_0 := None;
        dual_var_0 := None;
        factor := None;
        dual_var := None |}.

(** [la.inv] (numpy) and [proximal_update_admm] (imported from module
    [src.proximal_operators], outside [admm.py]) are parameters.  The dispatcher is called with keyword
    arguments [factor], [dual_var], [rho], [constraint], [hyperparams]. *)
Variable la_inv : ndarray T -> outcome (ndarray T).
Variable proximal_update_admm :
  ndarray T -> ndarray T -> T -> string -> list (string * T) -> outcome (ndarray T).

(** *** Lines 49-54: the set-up, once per call *)

Record setup : Type := Setup {
  rank : nat;
  kr_hadamard : ndarray T;
  rho : T;
  L : ndarray T;
  F : ndarray T;
  factor_conv : ndarray T
}.

Definition admm_setup (tensor_unfolding kr_product factor0 : ndarray T) (bsum : T)
  : outcome setup :=
  let rank := ncols factor0 in
  kr_hadamard <- matmul (np_T kr_product) kr_product ;;
  let rho := sdiv (np_trace kr_hadamard) (s_of_nat rank) in
  L <- np_add kr_hadamard (scalar_mul (sadd rho bsum) (np_eye rank)) ;;
  F <- matmul (np_T kr_product) tensor_unfolding ;;
  Ok (Setup rank kr_hadamard rho L F factor0).

(** *** Lines 58-77: one pass through the body of [while True] *)

(** The variables the loop carries, and the residuals of the last pass. *)
Record vars : Type := Vars {
  v_factor : ndarray T;
  v_dual_var : ndarray T;
  v_itr : Z
}.

Record pass : Type := Pass {
  p_factor_t : ndarray T;
  p_vars : vars;
  prim_res : T;
  dual_res : T
}.

Definition admm_iter (self : CPDADMM) (su : setup) (bsum : T) (v : vars)
  : outcome pass :=
  L_inv <- la_inv (L su) ;;
  fd <- np_add (v_factor v) (v_dual_var v) ;;
  rhs1 <- np_add (F su) (scalar_mul (rho su) (np_T fd)) ;;
  rhs <- np_add rhs1 (scalar_mul bsum (np_T (factor_conv su))) ;;
  prod <- matmul L_inv rhs ;;
  let factor_t := np_T prod in
  let factor_0 := v_factor v in
  factor' <- proximal_update_admm factor_t (v_dual_var v) (rho su)
               (constraint self) (hyperparams self) ;;
  dsum <- np_add (v_dual_var v) factor' ;;
  dual_var' <- np_sub dsum factor_t ;;
  pdiff <- np_sub factor' factor_t ;;
  let prim_res := sdiv (la_norm pdiff) (la_norm factor') in
  ddiff <- np_sub factor' factor_0 ;;
  let dual_res := sdiv (la_norm ddiff) (la_norm dual_var') in
  Ok (Pass factor_t (Vars factor' dual_var' (v_itr v + 1)) prim_res dual_res).

(** *** Lines 79-83: the exit test *)

Definition stop_criter1 (self : CPDADMM) (p : pass) : bool :=
  sltb (prim_res p) (tol_error self).
Definition stop_criter2 (self : CPDADMM) (p : pass) : bool :=
  sltb (dual_res p) (tol_error self).
Definition stop_criter3 (self : CPDADMM) (p : pass) : bool :=
  (n_iters self <=? v_itr (p_vars p))%Z.

Definition stop (self : CPDADMM) (p : pass) : bool :=
  (stop_criter1 self p && stop_criter2 self p) || stop_criter3 self p.

(** *** Lines 56-83: the loop, on fuel *)

Fixpoint admm_loop (fuel : nat) (self : CPDADMM) (su : setup) (bsum : T) (v : vars)
  : outcome pass :=
  match fuel with
  | O => OutOfFuel
  | S fuel' =>
      p <- admm_iter self su bsum v ;;
      if stop self p then Ok p else admm_loop fuel' self su bsum (p_vars p)
  end.

(** *** [CPDADMM.__call__], on values *)

Definition CPDADMM_call (fuel : nat) (self : CPDADMM)
    (tensor_unfolding kr_product factor0 dual_var0 : ndarray T) (bsum : T)
  : outcome (ndarray T * ndarray T) :=
  su <- admm_setup tensor_unfolding kr_product factor0 bsum ;;
  p <- admm_loop fuel self su bsum (Vars factor0 dual_var0 0) ;;
  Ok (v_factor (p_vars p), v_dual_var (p_vars p)).

End Solver.

Arguments CPDADMM T : clear implicits.
Arguments setup T : clear implicits.
Arguments vars T : clear implicits.
Arguments pass T : clear implicits.

(** ** The same method over a store of buffers

    Python names are bound to array objects; an assignment rebinds the name,
    and only an in-place operation writes into an object.  Here an array
    object is a [handle] into a [store] of buffers.  [fresh] is the one way
    the store changes: it appends a buffer.  Every numpy operation of
    [__call__] returns a new array, except [.T], which returns a view of the
    buffer of its argument. *)

Definition set_factor_mat_0 {T : Type} (self : CPDADMM T) (h : handle) : CPDADMM T :=
  MkCPDADMM (tensor_mode self) (constraint self) (hyperparams self)
    (tol_error self) (n_iters self) (Some h) (dual_var_0 self)
    (factor self) (dual_var self).

Definition set_dual_var_0 {T : Type} (self : CPDADMM T) (h : handle) : CPDADMM T :=
  MkCPDADMM (tensor_mode self) (constraint self) (hyperparams self)
    (tol_error self) (n_iters self) (factor_mat_0 self) (Some h)
    (factor self) (dual_var self).

Section Heap.

Context {T : Type} `{Scalar T}.

Variable la_inv : ndarray T -> outcome (ndarray T).
Variable proximal_update_admm :
  ndarray T -> ndarray T -> T -> string -> list (string * T) -> outcome (ndarray T).

Definition store : Type := list (ndarray T).

Definition M (A : Type) : Type := store -> outcome (A * store).

Definition ret {A : Type} (a : A) : M A := fun s => Ok (a, s).

Definition bindM {A B : Type} (m : M A) (k : A -> M B) : M B :=
  fun s =>
    match m s with
    | Ok (a, s') => k a s'
    | Raised e => Raised e
    | OutOfFuel => OutOfFuel
    end.

Definition lift {A : Type} (v : outcome A) : M A :=
  fun s => match v with
           | Ok a => Ok (a, s)
           | Raised e => Raised e
           | OutOfFuel => OutOfFuel
           end.

(** What a handle shows of its buffer. *)
Definition view (h : handle) (a : ndarray T) : ndarray T :=
  if transposed h then np_T a else a.

Definition deref (s : store) (h : handle) : option (ndarray T) :=
  option_map (view h) (nth_error s (buf h)).

(** Reading through a handle.  A handle that points outside the store has
    no Python counterpart; it is reported as [Dangling]. *)
Definition read (h : handle) : M (ndarray T) :=
  fun s => match deref s h with
           | Some a => Ok (a, s)
           | None => Raised Dangling
           end.

(** A new array object: a new buffer at the end of the store. *)
Definition fresh (a : ndarray T) : M handle :=
  fun s => Ok (Handle (List.length s) false, (s ++ [a])%list).

Notation "x <~ m ;; k" := (bindM m (fun x => k))
  (at level 61, m at next level, right associativity).

(** The three ways a numpy operation meets the store: it reads one array or
    two and returns a new one, or it reads an array and returns a number. *)
Definition apply1 (f : ndarray T -> outcome (ndarray T)) (a : handle) : M handle :=
  x <~ read a ;; z <~ lift (f x) ;; fresh z.

Definition apply2 (f : ndarray T -> ndarray T -> outcome (ndarray T))
    (a b : handle) : M handle :=
  x <~ read a ;; y <~ read b ;; z <~ lift (f x y) ;; fresh z.

Definition measure {A : Type} (f : ndarray T -> A) (a : handle) : M A :=
  x <~ read a ;; ret (f x).

(** The numpy operations of [__call__], on handles.  [a.T] is a view: it
    is a new handle on the buffer of [a]. *)
Definition h_T (a : handle) : M handle :=
  ret (Handle (buf a) (negb (transposed a))).

Definition h_ncols : handle -> M nat := measure (@ncols T).
Definition h_trace : handle -> M T := measure np_trace.
Definition h_norm : handle -> M T := measure la_norm.
Definition h_eye (n : nat) : M handle := fresh (np_eye n).
Definition h_scalar_mul (c : T) : handle -> M handle :=
  apply1 (fun x => Ok (scalar_mul c x)).
Definition h_matmul : handle -> handle -> M handle := apply2 matmul.
Definition h_add : handle -> handle -> M handle := apply2 np_add.
Definition h_sub : handle -> handle -> M handle := apply2 np_sub.
Definition h_inv : handle -> M handle := apply1 la_inv.

(** Modelled from the spec: [proximal_update_admm] of module
    [src.proximal_operators], which is not among the sources.  Section 4.2 of
    the specification makes it a pure, side-effect-free function that
    "returns a new matrix": it reads its two array arguments and the result
    is a new array object. *)
Definition h_prox (factor_t dual_var : handle) (rho : T) (constraint : string)
    (hyperparams : list (string * T)) : M handle :=
  apply2 (fun x d => proximal_update_admm x d rho constraint hyperparams)
    factor_t dual_var.

(** The local variables of [__call__] that the loop reads. *)
Record hsetup : Type := HSetup {
  h_rho : T;
  h_L : handle;
  h_F : handle;
  h_factor_conv : handle
}.

Record hvars : Type := HVars {
  hv_factor : handle;
  hv_dual_var : handle;
  hv_itr : Z
}.

Record hpass : Type := HPass {
  hp_factor_t : handle;
  hp_vars : hvars;
  hp_prim_res : T;
  hp_dual_res : T
}.

(** Lines 49-54. *)
Definition setup_h (tensor_unfolding kr_product factor0 : handle) (bsum : T)
  : M hsetup :=
  rank <~ h_ncols factor0 ;;
  krT <~ h_T kr_product ;;
  kr_hadamard <~ h_matmul krT kr_product ;;
  tr <~ h_trace kr_hadamard ;;
  let rho := sdiv tr (s_of_nat rank) in
  eye <~ h_eye rank ;;
  reg <~ h_scalar_mul (sadd rho bsum) eye ;;
  L <~ h_add kr_hadamard reg ;;
  krT' <~ h_T kr_product ;;
  F <~ h_matmul krT' tensor_unfolding ;;
  ret (HSetup rho L F factor0).

(** Lines 58-77. *)
Definition iter_h (self : CPDADMM T) (su : hsetup) (bsum : T) (v : hvars)
  : M hpass :=
  L_inv <~ h_inv (h_L su) ;;
  fd <~ h_add (hv_factor v) (hv_dual_var v) ;;
  fdT <~ h_T fd ;;
  t1 <~ h_scalar_mul (h_rho su) fdT ;;
  rhs1 <~ h_add (h_F su) t1 ;;
  fcT <~ h_T (h_factor_conv su) ;;
  t2 <~ h_scalar_mul bsum fcT ;;
  rhs <~ h_add rhs1 t2 ;;
  prod <~ h_matmul L_inv rhs ;;
  factor_t <~ h_T prod ;;
  let factor_0 := hv_factor v in
  factor' <~ h_prox factor_t (hv_dual_var v) (h_rho su)
               (constraint self) (hyperparams self) ;;
  dsum <~ h_add (hv_dual_var v) factor' ;;
  dual_var' <~ h_sub dsum factor_t ;;
  pdiff <~ h_sub factor' factor_t ;;
  n1 <~ h_norm pdiff ;;
  n2 <~ h_norm factor' ;;
  let prim_res := sdiv n1 n2 in
  ddiff <~ h_sub factor' factor_0 ;;
  n3 <~ h_norm ddiff ;;
  n4 <~ h_norm dual_var' ;;
  let dual_res := sdiv n3 n4 in
  ret (HPass factor_t (HVars factor' dual_var' (hv_itr v + 1)) prim_res dual_res).

(** Lines 79-82. *)
Definition stop_h (self : CPDADMM T) (p : hpass) : bool :=
  (sltb (hp_prim_res p) (tol_error self) && sltb (hp_dual_res p) (tol_error self))
  || (n_iters self <=? hv_itr (hp_vars p))%Z.

(** Lines 56-83. *)
Fixpoint loop_h (fuel : nat) (self : CPDADMM T) (su : hsetup) (bsum : T) (v : hvars)
  : M hpass :=
  match fuel with
  | O => fun _ => OutOfFuel
  | S fuel' =>
      p <~ iter_h self su bsum v ;;
      if stop_h self p then ret p else loop_h fuel' self su bsum (hp_vars p)
  end.

(** [CPDADMM.__call__]: the object after the call, and the two handles
    returned.  Lines 46-47 store the handles they are given: the fields and
    the caller's names are bound to the same two objects. *)
Definition call_h (fuel : nat) (self : CPDADMM T)
    (tensor_unfolding kr_product factor0 dual_var0 : handle) (bsum : T)
  : M (CPDADMM T * (handle * handle)) :=
  let self := set_factor_mat_0 self factor0 in
  let self := set_dual_var_0 self dual_var0 in
  su <~ setup_h tensor_unfolding kr_product factor0 bsum ;;
  p <~ loop_h fuel self su bsum (HVars factor0 dual_var0 0) ;;
  ret (self, (hv_factor (hp_vars p), hv_dual_var (hp_vars p))).

End Heap.

Arguments store T : clear implicits.
Arguments M T A : clear implicits.
Arguments hsetup T : clear implicits.
Arguments hpass T : clear implicits.

(** ** The vocabulary of the statements *)

Section Words.

Context {T : Type} `{Scalar T}.

(** The Frobenius norm of the [I] by [R] matrix with entries [x]: the square
    root of the sum of the squares of its entries, row after row. *)
Definition frobenius (I R : nat) (x : nat -> nat -> T) : T :=
  ssqrt (sum_upto (I * R)
           (fun k => smul (x (k / R) (k mod R)) (x (k / R) (k mod R)))).

(** [trace(K^T K)] for the [J] by [R] matrix with entries [k]. *)
Definition trace_gram (J R : nat) (k : nat -> nat -> T) : T :=
  sum_upto R (fun r => sum_upto J (fun j => smul (k j r) (k j r))).

(** Entry [(i, j)] of [L^-1 (F + rho (factor + dual_var)^T + bsum factor_conv^T)],
    transposed: the unconstrained ridge update. *)
Definition ridge_entry (R : nat) (L_inv F factor dual_var factor_conv : ndarray T)
    (rho bsum : T) (i j : nat) : T :=
  sum_upto R
    (fun k => smul (item L_inv j k)
                (sadd (sadd (item F k i)
                            (smul rho (sadd (item factor i k) (item dual_var i k))))
                      (smul bsum (item factor_conv i k)))).

(** The shapes of Section 3 of the specification: [L] is [R] by [R], [F] is
    [R] by [I], and the factor, its anchor and the dual variable are [I] by
    [R]. *)
Definition setup_shapes (I R : nat) (su : setup T) : Prop :=
  shape (L su) = (R, R) /\ shape (F su) = (R, I) /\
  shape (factor_conv su) = (I, R).

Definition vars_shapes (I R : nat) (v : vars T) : Prop :=
  shape (v_factor v) = (I, R) /\ shape (v_dual_var v) = (I, R).

Variable la_inv : ndarray T -> outcome (ndarray T).
Variable proximal_update_admm :
  ndarray T -> ndarray T -> T -> string -> list (string * T) -> outcome (ndarray T).

(** The pass number [n + 1] of the loop body, when the passes before it are
    run one after the other from [v] and the exit test is left out. *)
Fixpoint nth_pass (n : nat) (self : CPDADMM T) (su : setup T) (bsum : T) (v : vars T)
  : outcome (pass T) :=
  match n with
  | O => admm_iter la_inv proximal_update_admm self su bsum v
  | S m =>
      p <- admm_iter la_inv proximal_update_admm self su bsum v ;;
      nth_pass m self su bsum (p_vars p)
  end.

(** The loop goes from [v] to [v'] when a pass from [v] returns, the exit
    test fails, and [v'] are the variables it leaves. *)
Inductive loop_step (self : CPDADMM T) (su : setup T) (bsum : T)
  : vars T -> vars T -> Prop :=
| loop_step_intro (v : vars T) (p : pass T) :
    admm_iter la_inv proximal_update_admm self su bsum v = Ok p ->
    stop self p = false ->
    loop_step self su bsum v (p_vars p).

(** The variables the loop can hold at the top of a pass. *)
Inductive visited (self : CPDADMM T) (su : setup T) (bsum : T) (v0 : vars T)
  : vars T -> Prop :=
| visited_start : visited self su bsum v0 v0
| visited_next (v v' : vars T) :
    visited self su bsum v0 v ->
    loop_step self su bsum v v' ->
    visited self su bsum v0 v'.

(** The contracts of the two parameters.  [la.inv] returns an array of the
    shape of its argument; the dispatcher (Section 4.2 of the specification)
    returns a matrix of the shape of its estimate. *)
Definition inv_keeps_shape : Prop :=
  forall a b, la_inv a = Ok b -> shape b = shape a.

Definition prox_keeps_shape : Prop :=
  forall x d r c h y, proximal_update_admm x d r c h = Ok y -> shape y = shape x.

End Words.

(** A square real matrix, read on its leading [n] by [n] block. *)
Definition symmetric (n : nat) (a : ndarray R) : Prop :=
  forall i j, i < n -> j < n -> item a i j = item a j i.

(** [x^T a x] *)
Definition quadratic_form (n : nat) (a : ndarray R) (x : nat -> R) : R :=
  sum_upto n (fun i => sum_upto n (fun j => (x i * item a i j * x j)%R)).

Definition positive_definite (n : nat) (a : ndarray R) : Prop :=
  forall x : nat -> R,
    (exists i, i < n /\ x i <> 0%R) -> (0 < quadratic_form n a x)%R.

(** What a square root can be: a zero, a positive number, [+infinity], or
    NaN. *)
Definition sf_root_like (x : spec_float) : Prop :=
  match x with
  | S754_zero _ | S754_nan | S754_infinity false | S754_finite false _ _ => True
  | _ => False
  end.

(** ** Concrete runs at binary64 *)

(** The no-op constraint: the dispatcher returns its estimate. *)
Definition prox_identity {T : Type} (x d : ndarray T) (rho : T) (c : string)
    (h : list (string * T)) : outcome (ndarray T) := Ok x.

(** A dispatcher that knows no constraint at all. *)
Definition prox_reject {T : Type} (x d : ndarray T) (rho : T) (c : string)
    (h : list (string * T)) : outcome (ndarray T) := Raised (ProxError c).

Definition inv_float : ndarray float -> outcome (ndarray float) :=
  inv_cofactor (fun x => PrimFloat.eqb x 0%float).

Definition solver_float (tol : float) (n : Z) : CPDADMM float :=
  MkCPDADMM 0 "identity" [] tol n None None None None.

(** Small arrays. *)
Definition mat11 {T : Type} `{Scalar T} (a : T) : ndarray T := of_rows 1 1 [[a]].
Definition col2 {T : Type} `{Scalar T} (a b : T) : ndarray T := of_rows 2 1 [[a]; [b]].
Definition row2 {T : Type} `{Scalar T} (a b : T) : ndarray T := of_rows 1 2 [[a; b]].

(** ** The store model against the value model *)

Section HeapWords.

Context {T : Type} `{Scalar T}.

(** [s'] is [s] with buffers added at the end: no buffer of [s] was
    written. *)
Definition extends (s s' : store T) : Prop := exists t, s' = (s ++ t)%list.

(** The array object [h] holds the matrix [a]. *)
Definition shows (s : store T) (h : handle) (a : ndarray T) : Prop :=
  deref s h = Some a.

(** The object [h] was created after the store had [n] buffers. *)
Definition created_after (n : nat) (h : handle) : Prop := n <= buf h.

(** The relation of a newly made array: shown in the final store, created
    after the store the operation started from. *)
Definition made (s : store T) : store T -> handle -> ndarray T -> Prop :=
  fun s' h z => shows s' h z /\ created_after (List.length s) h.

(** A run on the store from [s] and a run on values end the same way, the
    store only grows, and the results are related in the final store. *)
Definition refines {A B : Type} (rel : store T -> A -> B -> Prop)
    (m : M T A) (v : outcome B) (s : store T) : Prop :=
  match m s, v with
  | Ok (a, s'), Ok b => extends s s' /\ rel s' a b
  | Raised e, Raised e' => e = e'
  | OutOfFuel, OutOfFuel => True
  | _, _ => False
  end.

Definition rel_setup (s : store T) (hs : hsetup T) (su : setup T) : Prop :=
  h_rho hs = rho su /\
  shows s (h_L hs) (L su) /\
  shows s (h_F hs) (F su) /\
  shows s (h_factor_conv hs) (factor_conv su).

Definition rel_vars (s : store T) (hv : hvars) (v : vars T) : Prop :=
  shows s (hv_factor hv) (v_factor v) /\
  shows s (hv_dual_var hv) (v_dual_var v) /\
  hv_itr hv = v_itr v.

Definition rel_pass (s : store T) (hp : hpass T) (p : pass T) : Prop :=
  shows s (hp_factor_t hp) (p_factor_t p) /\
  rel_vars s (hp_vars hp) (p_vars p) /\
  hp_prim_res hp = prim_res p /\
  hp_dual_res hp = dual_res p.

(** Two solver objects with the same five configured fields. *)
Definition same_config (a b : CPDADMM T) : Prop :=
  tensor_mode a = tensor_mode b /\
  constraint a = constraint b /\
  hyperparams a = hyperparams b /\
  tol_error a = tol_error b /\
  n_iters a = n_iters b.

End HeapWords.

(** A caller's store at binary64: [tensor_unfolding], [kr_product],
    [factor] and [dual_var], in buffers 0 to 3 ([J = 2], [I = 1], [R = 1]). *)
Definition caller_store : store float :=
  [col2 3%float 4%float; col2 1%float 2%float; mat11 7%float; mat11 1%float].

Definition arg (n : nat) : handle := Handle n false.


(** ** Further vocabulary: budget, answers, exact inverses *)

Section MoreWords.

Context {T : Type} `{Scalar T}.

(** The most passes a call can make: the budget, and one pass at least
    (the exit test comes after the body). *)
Definition max_passes (self : CPDADMM T) : Z := Z.max 1 (n_iters self).

Variable la_inv : ndarray T -> outcome (ndarray T).
Variable proximal_update_admm :
  ndarray T -> ndarray T -> T -> string -> list (string * T) -> outcome (ndarray T).

(** [la.inv] and the dispatcher are no loops of this model: they return or
    they raise. *)
Definition inv_answers : Prop := forall a, la_inv a <> OutOfFuel.

Definition prox_answers : Prop :=
  forall x d r c h, proximal_update_admm x d r c h <> OutOfFuel.

End MoreWords.

(** A nonnegativity dispatcher at binary64, for the concrete runs: negative
    entries of the estimate are replaced by zero. *)
Definition prox_nonneg (x d : ndarray float) (rho : float) (c : string)
    (h : list (string * float)) : outcome (ndarray float) :=
  Ok (NdArray (nrows x) (ncols x)
        (fun i j => if (item x i j <? 0)%float then 0%float else item x i j)).

(** No entry is below zero. *)
Definition no_negative_entry (a : ndarray float) : Prop :=
  forall i j, (item a i j <? 0)%float = false.

(** Over the reals: [a b = I] on the leading [n] by [n] blocks. *)
Definition inverse_of (n : nat) (a b : ndarray R) : Prop :=
  forall i j, i < n -> j < n ->
    sum_upto n (fun k => (item a i k * item b k j)%R) = if i =? j then 1%R else 0%R.

(** The inverse by cofactors over the reals. *)
Definition Rzerob (x : R) : bool := if Req_dec_T x 0 then true else false.

Definition inv_real : ndarray R -> outcome (ndarray R) := inv_cofactor Rzerob.

Definition solver_real (tol : R) (n : Z) : CPDADMM R :=
  MkCPDADMM 0 "identity" [] tol n None None None None.

(** A binary64 value that is not below zero: [+0], a positive number,
    [+infinity], or NaN. *)
Definition sf_plus (x : spec_float) : Prop :=
  match x with
  | S754_zero false | S754_infinity false | S754_finite false _ _ | S754_nan => True
  | _ => False
  end.

(** ** Extents that broadcasting cannot reconcile *)



(** ** Reading a binary64 matrix exactly *)

(** [x^T a x] in the arithmetic of the scalars. *)
Definition quadratic_form_in {T : Type} `{Scalar T} (n : nat) (a : ndarray T)
    (x : nat -> T) : T :=
  sum_upto n (fun i => sum_upto n (fun j => smul (smul (x i) (item a i j)) (x j))).

(** The integer [z] with [x = z * 2^e0], for a finite [x] that is a multiple
    of [2^e0]. *)
Definition scaled_by (e0 : Z) (x : float) : option Z :=
  match Prim2SF x with
  | S754_zero _ => Some 0%Z
  | S754_finite s m e =>
      if (e0 <=? e)%Z
      then Some ((if s then -1 else 1) * Z.pos m * 2 ^ (e - e0))%Z
      else None
  | _ => None
  end.

(** A 1 by 4 array. *)
Definition row4 {T : Type} `{Scalar T} (a b c d : T) : ndarray T :=
  of_rows 1 4 [[a; b; c; d]].

(** The unit vector along the first axis. *)
Definition unit0 {T : Type} `{Scalar T} (i : nat) : T := if i =? 0 then s1 else s0.

(** * Properties *)

Unset Implicit Arguments.

(** ** Outcomes and sums *)

Lemma bind_Ok {A B : Type} (m : outcome A) (k : A -> outcome B) (b : B) :
  bind m k = Ok b -> exists a, m = Ok a /\ k a = Ok b.
Proof.
  destruct m as [a | e | ]; simpl; intros E; try discriminate.
  exists a; split; [reflexivity | exact E].
Qed.

(** Peel the successive binds of a run that returned. *)
Ltac peel E :=
  repeat match type of E with
         | bind ?m ?k = Ok ?b =>
             let x := fresh "x" in
             let Ex := fresh "E" x in
             apply bind_Ok in E; destruct E as (x & Ex & E)
         end.

Section Basics.

Context {T : Type} `{Scalar T}.

Lemma sum_upto_ext (n : nat) (f g : nat -> T) :
  (forall k, k < n -> f k = g k) -> sum_upto n f = sum_upto n g.
Proof.
  induction n as [| n IH]; intros E; simpl; [reflexivity |].
  rewrite IH by (intros k Hk; apply E; lia).
  rewrite E by lia. reflexivity.
Qed.

Lemma bdim_same (n : nat) : bdim n n = Some n.
Proof. unfold bdim. now rewrite Nat.eqb_refl. Qed.

Lemma bidx_lt (m i : nat) : i < m -> bidx m i = i.
Proof.
  unfold bidx. destruct (Nat.eqb_spec m 1); [lia | reflexivity].
Qed.

Lemma matmul_Ok (a b c : ndarray T) :
  matmul a b = Ok c ->
  ncols a = nrows b /\
  c = NdArray (nrows a) (ncols b)
        (fun i j => sum_upto (ncols a) (fun k => smul (item a i k) (item b k j))).
Proof.
  unfold matmul. destruct (Nat.eqb_spec (ncols a) (nrows b)); intros E.
  - injection E as <-. now split.
  - discriminate.
Qed.

Lemma matmul_shape (a b c : ndarray T) :
  matmul a b = Ok c -> ncols a = nrows b /\ shape c = (nrows a, ncols b).
Proof.
  intros E. apply matmul_Ok in E. destruct E as [E ->]. now split.
Qed.


(** Two arrays of one shape: no axis is stretched. *)
Lemma broadcast2_same (f : T -> T -> T) (a b : ndarray T) (r c : nat) :
  shape a = (r, c) -> shape b = (r, c) ->
  exists z, broadcast2 f a b = Ok z /\ shape z = (r, c) /\
    forall i j, i < r -> j < c -> item z i j = f (item a i j) (item b i j).
Proof.
  unfold shape, broadcast2. intros Ea Eb.
  injection Ea as Ea1 Ea2. injection Eb as Eb1 Eb2.
  rewrite Ea1, Ea2, Eb1, Eb2, !bdim_same.
  eexists; split; [reflexivity |]. split; [reflexivity |].
  intros i j Hi Hj. simpl. now rewrite !bidx_lt.
Qed.

Lemma broadcast2_same_shape (f : T -> T -> T) (a b z : ndarray T) (r c : nat) :
  shape a = (r, c) -> shape b = (r, c) -> broadcast2 f a b = Ok z ->
  shape z = (r, c) /\
  forall i j, i < r -> j < c -> item z i j = f (item a i j) (item b i j).
Proof.
  intros Ea Eb E.
  destruct (broadcast2_same f a b r c Ea Eb) as (z' & E' & S' & I').
  rewrite E in E'. injection E' as <-. now split.
Qed.

Lemma shape_np_T (a : ndarray T) (r c : nat) :
  shape a = (r, c) -> shape (np_T a) = (c, r).
Proof. unfold shape. simpl. congruence. Qed.

Lemma shape_scalar_mul (k : T) (a : ndarray T) : shape (scalar_mul k a) = shape a.
Proof. reflexivity. Qed.

(** The norm of an array is the Frobenius norm of its entries. *)
Lemma la_norm_frobenius (a : ndarray T) (I R : nat) (x : nat -> nat -> T) :
  shape a = (I, R) ->
  (forall i j, i < I -> j < R -> item a i j = x i j) ->
  la_norm a = frobenius I R x.
Proof.
  unfold shape, la_norm, sum_squares, frobenius. intros E Ex.
  injection E as -> ->. f_equal. apply sum_upto_ext. intros k Hk.
  assert (R0 : R <> 0) by (intros Z; rewrite Z, Nat.mul_0_r in Hk; lia).
  rewrite Ex; [reflexivity | | now apply Nat.mod_upper_bound].
  apply Nat.Div0.div_lt_upper_bound. lia.
Qed.

End Basics.

(** The two contracts hold of the instances the concrete runs use. *)
Lemma inv_cofactor_shape {T : Type} `{Scalar T} (is_zero : T -> bool) :
  inv_keeps_shape (inv_cofactor is_zero).
Proof.
  intros a b. unfold inv_cofactor, shape.
  destruct (Nat.eqb_spec (nrows a) (ncols a)) as [E | N]; simpl; [| discriminate].
  destruct (is_zero _); [discriminate |].
  intros Eb. injection Eb as <-. simpl. now rewrite <- E.
Qed.

Lemma prox_identity_shape {T : Type} `{Scalar T} :
  prox_keeps_shape (@prox_identity T).
Proof. intros x d r c h y E. injection E as <-. reflexivity. Qed.

(** ** The set-up: step size and system matrix *)

Section SetupFacts.

Context {T : Type} `{Scalar T}.

Lemma admm_setup_Ok (tu kr factor0 : ndarray T) (bsum : T) (su : setup T) :
  admm_setup tu kr factor0 bsum = Ok su ->
  exists G Lm Fm,
    matmul (np_T kr) kr = Ok G /\
    np_add G (scalar_mul (sadd (sdiv (np_trace G) (s_of_nat (ncols factor0))) bsum)
                (np_eye (ncols factor0))) = Ok Lm /\
    matmul (np_T kr) tu = Ok Fm /\
    su = Setup (ncols factor0) G (sdiv (np_trace G) (s_of_nat (ncols factor0)))
           Lm Fm factor0.
Proof.
  unfold admm_setup. intros E. peel E. injection E as <-.
  now exists x, x0, x1.
Qed.

Lemma trace_of_gram (kr G : ndarray T) :
  matmul (np_T kr) kr = Ok G ->
  np_trace G = trace_gram (nrows kr) (ncols kr) (item kr).
Proof.
  intros E. apply matmul_Ok in E. destruct E as [_ ->].
  unfold np_trace, trace_gram. simpl. now rewrite Nat.min_id.
Qed.

(** C3.  The step size of a call is [trace(kr_product^T kr_product) / R],
    with [R = factor.shape[1]], the trace being the sum of the squares of
    the entries of [kr_product]; a call with the same [kr_product] and a
    factor of as many columns gets the same step size, whatever the entries
    of the factor (the dual variable is no argument of the set-up). *)
Theorem step_size_is_trace_over_rank
    (tu kr factor0 : ndarray T) (bsum : T) (su : setup T) :
  admm_setup tu kr factor0 bsum = Ok su ->
  matmul (np_T kr) kr = Ok (kr_hadamard su) /\
  rho su = sdiv (np_trace (kr_hadamard su)) (s_of_nat (ncols factor0)) /\
  np_trace (kr_hadamard su) = trace_gram (nrows kr) (ncols kr) (item kr) /\
  forall (tu' factor0' : ndarray T) (bsum' : T) (su' : setup T),
    ncols factor0' = ncols factor0 ->
    admm_setup tu' kr factor0' bsum' = Ok su' ->
    rho su' = rho su.
Proof.
  intros E. apply admm_setup_Ok in E.
  destruct E as (G & Lm & Fm & EG & EL & EF & ->). simpl.
  split; [exact EG |]. split; [reflexivity |].
  split; [now apply trace_of_gram |].
  intros tu' factor0' bsum' su' ER E'. apply admm_setup_Ok in E'.
  destruct E' as (G' & Lm' & Fm' & EG' & EL' & EF' & ->). simpl.
  rewrite EG in EG'. injection EG' as <-. now rewrite ER.
Qed.

End SetupFacts.

(** A 2 by 1 Khatri-Rao product with entries 1 and 2, rank 1: the step size
    is [(1 + 4) / 1]. *)
Lemma step_size_is_trace_over_rank_witness :
  exists su : setup float,
    admm_setup (col2 3%float 4%float) (col2 1%float 2%float)
      (mat11 7%float) 0%float = Ok su /\
    rho su = 5%float.
Proof.
  eexists. split.
  - vm_compute. reflexivity.
  - match goal with
    | |- rho ?s = _ =>
        destruct (step_size_is_trace_over_rank
                    (col2 3%float 4%float) (col2 1%float 2%float)
                    (mat11 7%float) 0%float s) as (_ & Er & Et & _)
    end.
    + vm_compute. reflexivity.
    + rewrite Er, Et. vm_compute. reflexivity.
Defined.

(** ** The system matrix over the reals *)

Section RealSums.

Local Open Scope R_scope.

Lemma rsum_plus (n : nat) (f g : nat -> R) :
  sum_upto n (fun k => f k + g k) = sum_upto n f + sum_upto n g.
Proof.
  induction n as [| n IH]; simpl; [lra |]. rewrite IH. lra.
Qed.

Lemma rsum_scal (n : nat) (c : R) (f : nat -> R) :
  sum_upto n (fun k => c * f k) = c * sum_upto n f.
Proof.
  induction n as [| n IH]; simpl; [lra |]. rewrite IH. lra.
Qed.

Lemma rsum_scal_r (n : nat) (c : R) (f : nat -> R) :
  sum_upto n (fun k => f k * c) = sum_upto n f * c.
Proof.
  induction n as [| n IH]; simpl; [lra |]. rewrite IH. lra.
Qed.

Lemma rsum_zero (n : nat) : sum_upto n (fun _ : nat => 0) = 0.
Proof.
  induction n as [| n IH]; simpl; [reflexivity |]. rewrite IH. lra.
Qed.

Lemma rsum_swap (n m : nat) (f : nat -> nat -> R) :
  sum_upto n (fun i => sum_upto m (fun j => f i j)) =
  sum_upto m (fun j => sum_upto n (fun i => f i j)).
Proof.
  induction n as [| n IH]; simpl.
  - now rewrite rsum_zero.
  - rewrite IH, <- rsum_plus. reflexivity.
Qed.

Lemma rsum_nonneg (n : nat) (f : nat -> R) :
  (forall k, (k < n)%nat -> 0 <= f k) -> 0 <= sum_upto n f.
Proof.
  induction n as [| n IH]; intros P; simpl; [lra |].
  assert (0 <= sum_upto n f) by (apply IH; intros; apply P; lia).
  assert (0 <= f n) by (apply P; lia). lra.
Qed.

Lemma rsum_pos (n : nat) (f : nat -> R) :
  (forall k, (k < n)%nat -> 0 <= f k) ->
  (exists k, (k < n)%nat /\ 0 < f k) ->
  0 < sum_upto n f.
Proof.
  induction n as [| n IH]; intros P (k & Hk & Pk); [lia |]. simpl.
  assert (0 <= f n) by (apply P; lia).
  assert (P' : forall i, (i < n)%nat -> 0 <= f i) by (intros; apply P; lia).
  destruct (Nat.eq_dec k n) as [-> | N].
  - pose proof (rsum_nonneg n f P'). lra.
  - assert (0 < sum_upto n f) by (apply IH; [exact P' | exists k; split; [lia | exact Pk]]).
    lra.
Qed.

(** Only the diagonal term of a row of the identity is left. *)
Lemma rsum_delta (n i : nat) (g : nat -> R) :
  (i < n)%nat ->
  sum_upto n (fun j => (if i =? j then 1 else 0) * g j) = g i.
Proof.
  induction n as [| n IH]; intros Hi; [lia |]. simpl.
  destruct (Nat.eqb_spec i n) as [-> | N].
  - rewrite (sum_upto_ext n _ (fun _ => 0)).
    + rewrite rsum_zero. lra.
    + intros k Hk. destruct (Nat.eqb_spec n k); [lia | lra].
  - rewrite IH by lia. lra.
Qed.

(** [x^T (K^T K) x = |K x|^2], entry by entry. *)
Lemma gram_quadratic (J n : nat) (K : nat -> nat -> R) (x : nat -> R) :
  sum_upto n (fun i => sum_upto n (fun j =>
    x i * sum_upto J (fun k => K k i * K k j) * x j)) =
  sum_upto J (fun k =>
    sum_upto n (fun i => K k i * x i) * sum_upto n (fun i => K k i * x i)).
Proof.
  transitivity
    (sum_upto n (fun i => sum_upto J (fun k =>
       (x i * K k i) * sum_upto n (fun j => K k j * x j)))).
  - apply sum_upto_ext. intros i _.
    transitivity (sum_upto n (fun j =>
      sum_upto J (fun k => (x i * K k i) * (K k j * x j)))).
    + apply sum_upto_ext. intros j _.
      rewrite <- rsum_scal, <- rsum_scal_r.
      apply sum_upto_ext. intros k _. lra.
    + rewrite rsum_swap. apply sum_upto_ext. intros k _.
      now rewrite rsum_scal.
  - rewrite rsum_swap. apply sum_upto_ext. intros k _.
    rewrite <- rsum_scal_r. apply sum_upto_ext. intros i _. lra.
Qed.

End RealSums.

Section SystemMatrix.

Local Open Scope R_scope.

(** C4.  Over the reals, with [R = factor.shape[1]] columns in
    [kr_product]: the matrix [L] of the set-up is
    [Gram + (rho + bsum) I_R] with [Gram = kr_product^T kr_product], and it
    is symmetric and positive definite when [rho + bsum > 0]. *)
Theorem system_matrix_spd
    (tu kr factor0 : ndarray R) (bsum : R) (su : setup R) :
  admm_setup tu kr factor0 bsum = Ok su ->
  ncols kr = ncols factor0 ->
  0 < rho su + bsum ->
  matmul (np_T kr) kr = Ok (kr_hadamard su) /\
  shape (L su) = (ncols factor0, ncols factor0) /\
  (forall i j, (i < ncols factor0)%nat -> (j < ncols factor0)%nat ->
     item (L su) i j =
     item (kr_hadamard su) i j + (rho su + bsum) * (if i =? j then 1 else 0)) /\
  symmetric (ncols factor0) (L su) /\
  positive_definite (ncols factor0) (L su).
Proof.
  intros E ER Hpos. apply admm_setup_Ok in E.
  destruct E as (G & Lm & Fm & EG & EL & EF & ->). simpl in *.
  set (n := ncols factor0) in *.
  set (c := np_trace G / INR n + bsum) in *.
  pose proof (matmul_Ok _ _ _ EG) as [_ DG]. simpl in DG. rewrite ER in DG.
  assert (SG : shape G = (n, n)) by (rewrite DG; reflexivity).
  assert (SI : shape (scalar_mul c (np_eye n)) = (n, n)) by reflexivity.
  destruct (broadcast2_same_shape _ _ _ _ _ _ SG SI EL) as [SL IL].
  assert (EL' : forall i j, (i < n)%nat -> (j < n)%nat ->
            item Lm i j = item G i j + c * (if i =? j then 1 else 0)).
  { intros i j Hi Hj. rewrite IL by assumption. reflexivity. }
  assert (GS : forall i j, item G i j = item G j i).
  { intros i j. rewrite DG. simpl. apply sum_upto_ext. intros k _. simpl. lra. }
  split; [exact EG |]. split; [exact SL |]. split; [exact EL' |]. split.
  - intros i j Hi Hj. rewrite !EL' by assumption. rewrite (GS i j).
    rewrite (Nat.eqb_sym j i). reflexivity.
  - intros x (i0 & Hi0 & Nz). unfold quadratic_form.
    rewrite (sum_upto_ext n _
      (fun i => sum_upto n (fun j => x i * item G i j * x j) + c * (x i * x i))).
    2:{ intros i Hi.
        rewrite (sum_upto_ext n _
          (fun j => x i * item G i j * x j
                    + (c * x i) * ((if i =? j then 1 else 0) * x j))).
        - rewrite rsum_plus, rsum_scal, rsum_delta by exact Hi. simpl. lra.
        - intros j Hj. rewrite EL' by assumption. simpl. lra. }
    rewrite rsum_plus, rsum_scal.
    assert (Q : 0 <= sum_upto n (fun i => sum_upto n (fun j => x i * item G i j * x j))).
    { rewrite DG. simpl.
      rewrite (gram_quadratic (nrows kr) n (item kr) x).
      apply rsum_nonneg. intros k _. apply Rle_0_sqr. }
    assert (P : 0 < sum_upto n (fun i => x i * x i)).
    { apply rsum_pos.
      - intros k _. apply Rle_0_sqr.
      - exists i0. split; [exact Hi0 |]. now apply Rsqr_pos_lt. }
    simpl. nra.
Qed.

End SystemMatrix.

(** The 1 by 1 Khatri-Rao product [[1]]: [rho = 1] and [L = [[2]]]. *)
Lemma system_matrix_spd_witness :
  exists su : setup R,
    admm_setup (mat11 0%R) (mat11 1%R) (mat11 0%R) 0%R = Ok su /\
    positive_definite 1 (L su).
Proof.
  eexists. split.
  - reflexivity.
  - match goal with
    | |- positive_definite _ (L ?s) =>
        destruct (system_matrix_spd (mat11 0%R) (mat11 1%R) (mat11 0%R) 0%R s)
          as (_ & _ & _ & _ & PD)
    end.
    + reflexivity.
    + reflexivity.
    + unfold np_trace. simpl. lra.
    + exact PD.
Defined.

(** C4 does not carry over to binary64, the arithmetic [__call__] runs in.
    With [kr_product = [[2^600, 0]]] and [bsum = 0] the Gram entry
    overflows: [rho + bsum] is [+infinity], which is above zero, and [L] is
    [[inf, nan], [nan, inf]]; its off-diagonal entries are not equal to each
    other (NaN equals nothing) and its quadratic form at the first unit
    vector is NaN.  With a finite input of one row and four columns, and
    [rho + bsum = 2^-54], every entry of [L] is finite and [L] is symmetric,
    but read exactly, in units of [2^-54], its leading 2 by 2 block
    [[a, b], [b, d]] has [a d < b b], and the quadratic form of [L] at the
    vector [(b, -a, 0, 0)] is negative. *)
Lemma system_matrix_counterexample :
  (exists su : setup float,
     admm_setup (mat11 0%float) (row2 0x1p600%float 0%float)
       (row2 0%float 0%float) 0%float = Ok su /\
     (0 <? rho su + 0)%float = true /\
     to_rows (L su) = [[infinity; nan]; [nan; infinity]] /\
     (item (L su) 0 1 =? item (L su) 1 0)%float = false /\
     (0 <? quadratic_form_in 2 (L su) unit0)%float = false) /\
  (exists (su : setup float) (a b d : Z),
     admm_setup (mat11 0%float)
       (row4 0x1.5c8ba8edc38f5p-1%float 0x1.7f563f582523ep-1%float 0%float 0%float)
       (row4 0%float 0%float 0%float 0%float)
       (-0x1.0623cb83ead7ep-2)%float = Ok su /\
     (rho su + -0x1.0623cb83ead7ep-2)%float = 0x1p-54%float /\
     (0 <? rho su + -0x1.0623cb83ead7ep-2)%float = true /\
     scaled_by (-54) (item (L su) 0 0) = Some a /\
     scaled_by (-54) (item (L su) 0 1) = Some b /\
     scaled_by (-54) (item (L su) 1 0) = Some b /\
     scaled_by (-54) (item (L su) 1 1) = Some d /\
     (0 < a)%Z /\
     (a * d < b * b)%Z /\
     (b * a * b + b * b * (- a) + (- a) * b * b + (- a) * d * (- a) < 0)%Z).
Proof.
  split.
  - eexists. split; [vm_compute; reflexivity |].
    repeat split; vm_compute; reflexivity.
  - eexists. eexists. eexists. eexists.
    split; [vm_compute; reflexivity |].
    split; [vm_compute; reflexivity |].
    split; [vm_compute; reflexivity |].
    split; [vm_compute; reflexivity |].
    split; [vm_compute; reflexivity |].
    split; [vm_compute; reflexivity |].
    split; [vm_compute; reflexivity |].
    repeat split; vm_compute; reflexivity.
Qed.

(** ** One pass of the loop body *)

Section PassFacts.

Context {T : Type} `{Scalar T}.

Variable la_inv : ndarray T -> outcome (ndarray T).
Variable proximal_update_admm :
  ndarray T -> ndarray T -> T -> string -> list (string * T) -> outcome (ndarray T).

Local Notation "'iter'" := (admm_iter la_inv proximal_update_admm).

(** A pass that returns has gone through every line of the body. *)
Lemma admm_iter_Ok (self : CPDADMM T) (su : setup T) (bsum : T) (v : vars T)
    (p : pass T) :
  iter self su bsum v = Ok p ->
  exists L_inv fd rhs1 rhs prod factor' dsum dual_var' pdiff ddiff,
    la_inv (L su) = Ok L_inv /\
    np_add (v_factor v) (v_dual_var v) = Ok fd /\
    np_add (F su) (scalar_mul (rho su) (np_T fd)) = Ok rhs1 /\
    np_add rhs1 (scalar_mul bsum (np_T (factor_conv su))) = Ok rhs /\
    matmul L_inv rhs = Ok prod /\
    proximal_update_admm (np_T prod) (v_dual_var v) (rho su)
      (constraint self) (hyperparams self) = Ok factor' /\
    np_add (v_dual_var v) factor' = Ok dsum /\
    np_sub dsum (np_T prod) = Ok dual_var' /\
    np_sub factor' (np_T prod) = Ok pdiff /\
    np_sub factor' (v_factor v) = Ok ddiff /\
    p = Pass (np_T prod) (Vars factor' dual_var' (v_itr v + 1))
          (sdiv (la_norm pdiff) (la_norm factor'))
          (sdiv (la_norm ddiff) (la_norm dual_var')).
Proof.
  unfold admm_iter. intros E. peel E. injection E as <-.
  exists x, x0, x1, x2, x3, x4, x5, x6, x7, x8. repeat split; assumption.
Qed.

Hypothesis inv_shape : inv_keeps_shape la_inv.
Hypothesis prox_shape : prox_keeps_shape proximal_update_admm.

(** C1.  On matrices of the shapes of the specification, a pass that
    returns has computed, in this order: the ridge update
    [factor_t = (L^-1 (F + rho (factor + dual_var)^T + bsum factor_conv^T))^T];
    the new factor, which is what the proximal operator returns on
    [factor_t], the old dual variable and [rho]; the dual ascent
    [dual_var + factor - factor_t] with the new factor; the primal residual
    [|factor - factor_t| / |factor|] and the dual residual
    [|factor - factor_0| / |dual_var|], in Frobenius norms, with [factor_0]
    the factor before the pass and [dual_var] the one just updated; and it
    has added one to the counter. *)
Theorem inner_iteration_steps (self : CPDADMM T) (su : setup T) (bsum : T)
    (v : vars T) (p : pass T) (I R : nat) :
  setup_shapes I R su ->
  vars_shapes I R v ->
  iter self su bsum v = Ok p ->
  let factor_t := p_factor_t p in
  let factor' := v_factor (p_vars p) in
  let dual_var' := v_dual_var (p_vars p) in
  exists L_inv,
    la_inv (L su) = Ok L_inv /\
    shape factor_t = (I, R) /\
    (forall i j, i < I -> j < R ->
       item factor_t i j =
       ridge_entry R L_inv (F su) (v_factor v) (v_dual_var v) (factor_conv su)
         (rho su) bsum i j) /\
    proximal_update_admm factor_t (v_dual_var v) (rho su)
      (constraint self) (hyperparams self) = Ok factor' /\
    shape factor' = (I, R) /\
    shape dual_var' = (I, R) /\
    (forall i j, i < I -> j < R ->
       item dual_var' i j =
       ssub (sadd (item (v_dual_var v) i j) (item factor' i j)) (item factor_t i j)) /\
    prim_res p =
      sdiv (frobenius I R (fun i j => ssub (item factor' i j) (item factor_t i j)))
           (frobenius I R (item factor')) /\
    dual_res p =
      sdiv (frobenius I R (fun i j => ssub (item factor' i j) (item (v_factor v) i j)))
           (frobenius I R (item dual_var')) /\
    v_itr (p_vars p) = (v_itr v + 1)%Z.
Proof.
  intros (SL & SF & SC) (Sf & Sd) E. apply admm_iter_Ok in E.
  destruct E as (L_inv & fd & rhs1 & rhs & prod & factor' & dsum & dual_var'
                 & pdiff & ddiff & EI & Efd & Er1 & Er & Ep & Ex & Eds & Edu
                 & Epd & Edd & ->).
  simpl.
  pose proof (inv_shape _ _ EI) as SLi. rewrite SL in SLi.
  destruct (broadcast2_same_shape _ _ _ _ _ _ Sf Sd Efd) as [Sfd Ifd].
  assert (St1 : shape (scalar_mul (rho su) (np_T fd)) = (R, I))
    by (rewrite shape_scalar_mul; now apply shape_np_T).
  destruct (broadcast2_same_shape _ _ _ _ _ _ SF St1 Er1) as [Sr1 Ir1].
  assert (St2 : shape (scalar_mul bsum (np_T (factor_conv su))) = (R, I))
    by (rewrite shape_scalar_mul; now apply shape_np_T).
  destruct (broadcast2_same_shape _ _ _ _ _ _ Sr1 St2 Er) as [Sr Ir].
  pose proof (matmul_Ok _ _ _ Ep) as [_ Dp].
  assert (Sp : shape prod = (R, I)).
  { rewrite Dp. unfold shape in *. simpl. congruence. }
  assert (St : shape (np_T prod) = (I, R)) by now apply shape_np_T.
  pose proof (prox_shape _ _ _ _ _ _ Ex) as Sx. rewrite St in Sx.
  destruct (broadcast2_same_shape _ _ _ _ _ _ Sd Sx Eds) as [Sds Ids].
  destruct (broadcast2_same_shape _ _ _ _ _ _ Sds St Edu) as [Sdu Idu].
  destruct (broadcast2_same_shape _ _ _ _ _ _ Sx St Epd) as [Spd Ipd].
  destruct (broadcast2_same_shape _ _ _ _ _ _ Sx Sf Edd) as [Sdd Idd].
  exists L_inv. split; [exact EI |]. split; [exact St |]. split.
  { intros i j Hi Hj. rewrite Dp. simpl. unfold ridge_entry.
    assert (CL : ncols L_inv = R) by (unfold shape in SLi; congruence).
    rewrite CL. apply sum_upto_ext. intros k Hk. f_equal.
    rewrite Ir, Ir1 by assumption. simpl. now rewrite Ifd. }
  split; [exact Ex |]. split; [exact Sx |]. split; [exact Sdu |]. split.
  { intros i j Hi Hj. rewrite Idu, Ids by assumption. reflexivity. }
  split.
  { f_equal.
    - now apply la_norm_frobenius.
    - now apply la_norm_frobenius. }
  split; [| reflexivity].
  f_equal.
  - now apply la_norm_frobenius.
  - now apply la_norm_frobenius.
Qed.

End PassFacts.

(** One pass at binary64 with [J = 2], [I = 1], [R = 1]. *)
Lemma inner_iteration_steps_witness :
  exists (su : setup float) (p : pass float),
    admm_setup (col2 3%float 4%float) (col2 1%float 2%float) (mat11 7%float)
      0%float = Ok su /\
    admm_iter inv_float prox_identity (solver_float 0%float 1) su 0%float
      (Vars (mat11 7%float) (mat11 1%float) 0) = Ok p /\
    v_itr (p_vars p) = 1%Z.
Proof.
  eexists. eexists.
  split; [vm_compute; reflexivity |].
  match goal with
  | |- admm_iter _ _ ?self ?su ?b ?v = Ok ?p /\ _ =>
      assert (E : admm_iter inv_float prox_identity self su b v = Ok p)
        by (vm_compute; reflexivity);
      split; [exact E |];
      destruct (inner_iteration_steps inv_float prox_identity
                  (inv_cofactor_shape _) prox_identity_shape
                  self su b v p 1 1)
        as (_ & _ & _ & _ & _ & _ & _ & _ & _ & _ & Ei)
  end.
  - repeat split.
  - repeat split.
  - exact E.
  - exact Ei.
Defined.

(** ** The loop *)

Section LoopFacts.

Context {T : Type} `{Scalar T}.

Variable la_inv : ndarray T -> outcome (ndarray T).
Variable proximal_update_admm :
  ndarray T -> ndarray T -> T -> string -> list (string * T) -> outcome (ndarray T).

Local Notation "'iter'" := (admm_iter la_inv proximal_update_admm).
Local Notation "'loop'" := (admm_loop la_inv proximal_update_admm).
Local Notation "'pass_no'" := (nth_pass la_inv proximal_update_admm).

Variable self : CPDADMM T.
Variable su : setup T.
Variable bsum : T.

Lemma iter_counter (v : vars T) (p : pass T) :
  iter self su bsum v = Ok p -> v_itr (p_vars p) = (v_itr v + 1)%Z.
Proof.
  intros E. apply admm_iter_Ok in E.
  destruct E as (? & ? & ? & ? & ? & ? & ? & ? & ? & ? & E). 
  repeat match goal with E : _ /\ _ |- _ => destruct E as [_ E] end.
  subst p. reflexivity.
Qed.

Lemma nth_pass_counter (n : nat) (v : vars T) (p : pass T) :
  pass_no n self su bsum v = Ok p ->
  v_itr (p_vars p) = (v_itr v + Z.of_nat n + 1)%Z.
Proof.
  revert v. induction n as [| n IH]; intros v E.
  - simpl in E. apply iter_counter in E. lia.
  - simpl in E. apply bind_Ok in E. destruct E as (q & Eq & E).
    apply IH in E. apply iter_counter in Eq. lia.
Qed.

(** The loop returns the first pass at which the exit test holds. *)
Lemma loop_returns_first_stop (fuel : nat) (v : vars T) (p : pass T) :
  loop fuel self su bsum v = Ok p <->
  exists n, n < fuel /\
    pass_no n self su bsum v = Ok p /\ stop self p = true /\
    forall m, m < n ->
      exists q, pass_no m self su bsum v = Ok q /\ stop self q = false.
Proof.
  revert v. induction fuel as [| fuel IH]; intros v.
  - split; [discriminate | intros (n & Hn & _); lia].
  - split.
    + simpl. intros E. apply bind_Ok in E. destruct E as (p1 & E1 & E).
      destruct (stop self p1) eqn:S1.
      * injection E as <-. exists 0. split; [lia |]. split; [exact E1 |].
        split; [exact S1 |]. intros m Hm. lia.
      * apply IH in E. destruct E as (n & Hn & En & Sn & Before).
        exists (S n). split; [lia |]. split; [simpl; now rewrite E1 |].
        split; [exact Sn |]. intros [| m] Hm.
        -- exists p1. now split.
        -- destruct (Before m) as (q & Eq & Sq); [lia |].
           exists q. split; [simpl; now rewrite E1 | exact Sq].
    + intros (n & Hn & En & Sn & Before). simpl. destruct n as [| n].
      * simpl in En. rewrite En. simpl. now rewrite Sn.
      * simpl in En. apply bind_Ok in En. destruct En as (p1 & E1 & En).
        rewrite E1. simpl.
        destruct (Before 0) as (q & Eq & Sq); [lia |].
        simpl in Eq. rewrite E1 in Eq. injection Eq as <-. rewrite Sq.
        apply IH. exists n. split; [lia |]. split; [exact En |].
        split; [exact Sn |]. intros m Hm.
        destruct (Before (S m)) as (q & Eq & Sq'); [lia |].
        simpl in Eq. rewrite E1 in Eq. simpl in Eq. now exists q.
Qed.

(** A budget that the counter has reached after one pass ends the loop
    there. *)
Lemma loop_one_pass (fuel : nat) (v : vars T) (p : pass T) :
  (n_iters self <= v_itr v + 1)%Z ->
  iter self su bsum v = Ok p ->
  loop (S fuel) self su bsum v = Ok p.
Proof.
  intros B E. simpl. rewrite E. simpl.
  assert (S3 : stop_criter3 self p = true).
  { unfold stop_criter3. rewrite (iter_counter _ _ E). now apply Z.leb_le. }
  unfold stop. rewrite S3. now rewrite orb_true_r.
Qed.

End LoopFacts.

Section ExitFacts.

Context {T : Type} `{Scalar T}.

Variable la_inv : ndarray T -> outcome (ndarray T).
Variable proximal_update_admm :
  ndarray T -> ndarray T -> T -> string -> list (string * T) -> outcome (ndarray T).

(** C2.  The exit test is [(prim_res < tol and dual_res < tol) or
    itr >= n_iters]; the loop returns the pass [p] exactly when [p] is the
    first completed pass at which the test holds, and its counter is the
    number of passes made.  When [n_iters] is 1, or negative as the default
    [-1] is, a call whose first pass returns makes that one pass and no
    other, whatever the tolerance and the residuals are. *)
Theorem loop_exit_rule (self : CPDADMM T) (su : setup T) (bsum : T) :
  (forall p : pass T,
     stop self p =
     (sltb (prim_res p) (tol_error self) && sltb (dual_res p) (tol_error self))
     || (n_iters self <=? v_itr (p_vars p))%Z) /\
  (forall (fuel : nat) (v : vars T) (p : pass T),
     admm_loop la_inv proximal_update_admm fuel self su bsum v = Ok p <->
     exists n, n < fuel /\
       nth_pass la_inv proximal_update_admm n self su bsum v = Ok p /\
       stop self p = true /\
       v_itr (p_vars p) = (v_itr v + Z.of_nat n + 1)%Z /\
       forall m, m < n ->
         exists q, nth_pass la_inv proximal_update_admm m self su bsum v = Ok q /\
                   stop self q = false) /\
  (forall (tu kr factor0 dual_var0 : ndarray T) (p : pass T),
     (n_iters self <= 1)%Z ->
     admm_setup tu kr factor0 bsum = Ok su ->
     admm_iter la_inv proximal_update_admm self su bsum (Vars factor0 dual_var0 0)
       = Ok p ->
     v_itr (p_vars p) = 1%Z /\
     forall fuel : nat,
       admm_loop la_inv proximal_update_admm (S fuel) self su bsum
         (Vars factor0 dual_var0 0) = Ok p /\
       CPDADMM_call la_inv proximal_update_admm (S fuel) self tu kr factor0
         dual_var0 bsum = Ok (v_factor (p_vars p), v_dual_var (p_vars p))) /\
  (forall (tensor_mode : Z) (constraint : string) (hyperparams : list (string * T))
          (tol_error : T),
     exists s, CPDADMM_init tensor_mode constraint hyperparams tol_error None = Ok s /\
               n_iters s = (-1)%Z).
Proof.
  split; [reflexivity |]. split; [| split].
  - intros fuel v p. rewrite loop_returns_first_stop. split.
    + intros (n & Hn & En & Sn & Before). exists n.
      repeat split; try assumption. now apply nth_pass_counter in En.
    + intros (n & Hn & En & Sn & _ & Before). now exists n.
  - intros tu kr factor0 dual_var0 p B Es Ep.
    split; [now apply iter_counter in Ep |].
    intros fuel.
    assert (El : admm_loop la_inv proximal_update_admm (S fuel) self su bsum
                   (Vars factor0 dual_var0 0) = Ok p)
      by (apply loop_one_pass; [exact B | exact Ep]).
    split; [exact El |].
    unfold CPDADMM_call. rewrite Es. cbn [bind]. rewrite El. reflexivity.
  - intros. eexists. split; reflexivity.
Qed.

End ExitFacts.

(** A call at binary64 with the default budget [-1] and a tolerance no
    residual is below: one pass, for any fuel. *)
Lemma loop_exit_rule_witness :
  exists (su : setup float) (p : pass float),
    admm_setup (col2 3%float 4%float) (col2 1%float 2%float) (mat11 7%float)
      0%float = Ok su /\
    admm_iter inv_float prox_identity (solver_float 0%float (-1)) su 0%float
      (Vars (mat11 7%float) (mat11 1%float) 0) = Ok p /\
    stop_criter1 (solver_float 0%float (-1)) p = false /\
    forall fuel : nat,
      admm_loop inv_float prox_identity (S fuel) (solver_float 0%float (-1)) su
        0%float (Vars (mat11 7%float) (mat11 1%float) 0) = Ok p.
Proof.
  eexists. eexists.
  split; [vm_compute; reflexivity |].
  match goal with
  | |- admm_iter _ _ ?self ?su ?b ?v = Ok ?p /\ _ =>
      assert (E : admm_iter inv_float prox_identity self su b v = Ok p)
        by (vm_compute; reflexivity);
      split; [exact E |]; split; [vm_compute; reflexivity |];
      destruct (loop_exit_rule inv_float prox_identity self su b)
        as (_ & _ & One & _);
      destruct (One (col2 3%float 4%float) (col2 1%float 2%float)
                  (mat11 7%float) (mat11 1%float) p) as (_ & Run)
  end.
  - vm_compute. discriminate.
  - vm_compute. reflexivity.
  - exact E.
  - intros fuel. exact (proj1 (Run fuel)).
Defined.

(** ** Shapes *)

Section ShapeFacts.

Context {T : Type} `{Scalar T}.

Variable la_inv : ndarray T -> outcome (ndarray T).
Variable proximal_update_admm :
  ndarray T -> ndarray T -> T -> string -> list (string * T) -> outcome (ndarray T).

Hypothesis inv_shape : inv_keeps_shape la_inv.
Hypothesis prox_shape : prox_keeps_shape proximal_update_admm.

Local Notation "'iter'" := (admm_iter la_inv proximal_update_admm).
Local Notation "'loop'" := (admm_loop la_inv proximal_update_admm).

Lemma admm_setup_shapes (tu kr factor0 : ndarray T) (bsum : T) (su : setup T)
    (J I R : nat) :
  shape tu = (J, I) -> shape kr = (J, R) -> shape factor0 = (I, R) ->
  admm_setup tu kr factor0 bsum = Ok su ->
  setup_shapes I R su.
Proof.
  intros St Sk Sf E. apply admm_setup_Ok in E.
  destruct E as (G & Lm & Fm & EG & EL & EF & ->).
  unfold setup_shapes. simpl.
  assert (Rf : ncols factor0 = R) by (unfold shape in Sf; congruence).
  rewrite Rf in EL.
  apply matmul_Ok in EG. destruct EG as [_ DG].
  assert (SG : shape G = (R, R)).
  { rewrite DG. unfold shape in *. simpl. congruence. }
  assert (SI : shape (scalar_mul (sadd (sdiv (np_trace G) (s_of_nat R)) bsum)
                        (np_eye R)) = (R, R)) by reflexivity.
  destruct (broadcast2_same_shape _ _ _ _ _ _ SG SI EL) as [SL _].
  apply matmul_Ok in EF. destruct EF as [_ DF].
  split; [exact SL |]. split; [| exact Sf].
  rewrite DF. unfold shape in *. simpl. congruence.
Qed.

(** After the proximal update the new factor stands beside the old dual
    variable; after the dual ascent, beside the new one. *)
Lemma pass_shapes (self : CPDADMM T) (su : setup T) (bsum : T) (v : vars T)
    (p : pass T) (I R : nat) :
  setup_shapes I R su -> vars_shapes I R v ->
  iter self su bsum v = Ok p ->
  shape (p_factor_t p) = (I, R) /\
  shape (v_factor (p_vars p)) = (I, R) /\
  shape (v_dual_var v) = (I, R) /\
  vars_shapes I R (p_vars p).
Proof.
  intros (SL & SF & SC) (Sf & Sd) E. apply admm_iter_Ok in E.
  destruct E as (L_inv & fd & rhs1 & rhs & prod & factor' & dsum & dual_var'
                 & pdiff & ddiff & EI & Efd & Er1 & Er & Ep & Ex & Eds & Edu
                 & Epd & Edd & ->).
  simpl.
  pose proof (inv_shape _ _ EI) as SLi. rewrite SL in SLi.
  destruct (broadcast2_same_shape _ _ _ _ _ _ Sf Sd Efd) as [Sfd _].
  assert (St1 : shape (scalar_mul (rho su) (np_T fd)) = (R, I))
    by (rewrite shape_scalar_mul; now apply shape_np_T).
  destruct (broadcast2_same_shape _ _ _ _ _ _ SF St1 Er1) as [Sr1 _].
  assert (St2 : shape (scalar_mul bsum (np_T (factor_conv su))) = (R, I))
    by (rewrite shape_scalar_mul; now apply shape_np_T).
  destruct (broadcast2_same_shape _ _ _ _ _ _ Sr1 St2 Er) as [Sr _].
  pose proof (matmul_Ok _ _ _ Ep) as [_ Dp].
  assert (St : shape (np_T prod) = (I, R)).
  { rewrite Dp. unfold shape in *. simpl. congruence. }
  pose proof (prox_shape _ _ _ _ _ _ Ex) as Sx. rewrite St in Sx.
  destruct (broadcast2_same_shape _ _ _ _ _ _ Sd Sx Eds) as [Sds _].
  destruct (broadcast2_same_shape _ _ _ _ _ _ Sds St Edu) as [Sdu _].
  unfold vars_shapes. simpl. repeat split; assumption.
Qed.

Lemma visited_shapes (self : CPDADMM T) (su : setup T) (bsum : T)
    (v0 v : vars T) (I R : nat) :
  setup_shapes I R su -> vars_shapes I R v0 ->
  visited la_inv proximal_update_admm self su bsum v0 v ->
  vars_shapes I R v.
Proof.
  intros Ss S0 V. induction V as [| v v' V IH St]; [exact S0 |].
  destruct St as [v p E _].
  now destruct (pass_shapes self su bsum v p I R Ss IH E) as (_ & _ & _ & S').
Qed.

Lemma loop_shapes (fuel : nat) (self : CPDADMM T) (su : setup T) (bsum : T)
    (v : vars T) (p : pass T) (I R : nat) :
  setup_shapes I R su -> vars_shapes I R v ->
  loop fuel self su bsum v = Ok p ->
  vars_shapes I R (p_vars p).
Proof.
  intros Ss. revert v. induction fuel as [| fuel IH]; intros v Sv E.
  - discriminate.
  - simpl in E. apply bind_Ok in E. destruct E as (q & Eq & E).
    destruct (pass_shapes self su bsum v q I R Ss Sv Eq) as (_ & _ & _ & Sq).
    destruct (stop self q).
    + injection E as <-. exact Sq.
    + exact (IH _ Sq E).
Qed.

(** C5.  With [tensor_unfolding] of shape [J] by [I], [kr_product] [J] by
    [R], [factor] and [dual_var] [I] by [R], an inverse and a proximal
    operator that keep shapes: the two matrices a call returns are [I] by
    [R]; so are the factor and the dual variable at the top of every pass
    the loop reaches; and in a pass from there, the update [factor_t], the
    new factor (beside the old dual variable) and then the new dual variable
    are [I] by [R] as well. *)
Theorem shapes_are_preserved (self : CPDADMM T)
    (tu kr factor0 dual_var0 : ndarray T) (bsum : T) (J I R : nat) :
  shape tu = (J, I) -> shape kr = (J, R) ->
  shape factor0 = (I, R) -> shape dual_var0 = (I, R) ->
  (forall (fuel : nat) (f d : ndarray T),
     CPDADMM_call la_inv proximal_update_admm fuel self tu kr factor0 dual_var0 bsum
       = Ok (f, d) ->
     shape f = (I, R) /\ shape d = (I, R)) /\
  (forall (su : setup T) (v : vars T),
     admm_setup tu kr factor0 bsum = Ok su ->
     visited la_inv proximal_update_admm self su bsum (Vars factor0 dual_var0 0) v ->
     (shape (v_factor v) = (I, R) /\ shape (v_dual_var v) = (I, R)) /\
     forall p : pass T,
       iter self su bsum v = Ok p ->
       shape (p_factor_t p) = (I, R) /\
       shape (v_factor (p_vars p)) = (I, R) /\
       shape (v_dual_var (p_vars p)) = (I, R)).
Proof.
  intros St Sk Sf Sd.
  assert (S0 : vars_shapes I R (Vars factor0 dual_var0 0)) by now split.
  split.
  - intros fuel f d E. unfold CPDADMM_call in E.
    apply bind_Ok in E. destruct E as (su & Es & E).
    apply bind_Ok in E. destruct E as (p & Ep & E). injection E as <- <-.
    pose proof (admm_setup_shapes _ _ _ _ _ _ _ _ St Sk Sf Es) as Ss.
    exact (loop_shapes _ _ _ _ _ _ _ _ Ss S0 Ep).
  - intros su v Es V.
    pose proof (admm_setup_shapes _ _ _ _ _ _ _ _ St Sk Sf Es) as Ss.
    pose proof (visited_shapes _ _ _ _ _ _ _ Ss S0 V) as Sv.
    split; [exact Sv |]. intros p Ep.
    destruct (pass_shapes _ _ _ _ _ _ _ Ss Sv Ep) as (A & B & _ & C & D).
    repeat split; assumption.
Qed.

End ShapeFacts.

(** A call at binary64 with [J = 2], [I = 1], [R = 1]. *)
Lemma shapes_are_preserved_witness :
  exists f d : ndarray float,
    CPDADMM_call inv_float prox_identity 1 (solver_float 0%float 1)
      (col2 3%float 4%float) (col2 1%float 2%float) (mat11 7%float)
      (mat11 1%float) 0%float = Ok (f, d) /\
    shape f = (1, 1) /\ shape d = (1, 1).
Proof.
  eexists. eexists.
  match goal with
  | |- ?call = Ok (?f, ?d) /\ _ =>
      assert (E : call = Ok (f, d)) by (vm_compute; reflexivity);
      split; [exact E |];
      destruct (shapes_are_preserved inv_float prox_identity
                  (inv_cofactor_shape _) prox_identity_shape
                  (solver_float 0%float 1)
                  (col2 3%float 4%float) (col2 1%float 2%float) (mat11 7%float)
                  (mat11 1%float) 0%float 2 1 1) as (Ret & _)
  end; try reflexivity.
  exact (Ret 1 _ _ E).
Defined.

(** ** Residuals with a zero denominator, at binary64 *)

Section FloatQuotients.

Lemma SF64sqrt_root_like (x : spec_float) : sf_root_like (SF64sqrt x).
Proof.
  unfold SF64sqrt, SFsqrt.
  destruct x as [s | [|] | | [|] m e]; simpl; try exact I.
  destruct (SFsqrt_core_binary prec emax (Z.pos m) e) as [[mz ez] lz].
  unfold binary_round_aux.
  destruct (shr_fexp prec emax mz ez lz) as [mrs' e'].
  destruct (shr_fexp prec emax _ e' loc_Exact) as [mrs'' e''].
  destruct (shr_m mrs''); simpl; try exact I.
  destruct (_ <=? _)%Z; exact I.
Qed.

Lemma SF64div_by_zero (x : spec_float) :
  sf_root_like x ->
  SF64div x (S754_zero false) = S754_nan \/
  SF64div x (S754_zero false) = S754_infinity false.
Proof.
  destruct x as [s | [|] | | [|] m e]; simpl; intros P;
    try contradiction; auto.
Qed.

Lemma SFltb_nan_or_inf (x t : spec_float) :
  x = S754_nan \/ x = S754_infinity false -> SFltb x t = false.
Proof.
  intros [-> | ->]; unfold SFltb; simpl; [reflexivity |].
  destruct t as [s | [|] | | s m e]; reflexivity.
Qed.

(** A norm over a zero is NaN or [+infinity]. *)
Lemma norm_over_zero_value (x : float) :
  (PrimFloat.sqrt x / 0 = nan \/ PrimFloat.sqrt x / 0 = infinity)%float.
Proof.
  rewrite <- (SF2Prim_Prim2SF (PrimFloat.sqrt x / 0)%float).
  rewrite div_spec, sqrt_spec.
  change (Prim2SF 0%float) with (S754_zero false).
  destruct (SF64div_by_zero _ (SF64sqrt_root_like (Prim2SF x))) as [-> | ->];
    [left | right]; reflexivity.
Qed.

(** It is below no tolerance. *)
Lemma norm_over_zero_not_below (x tol : float) :
  (PrimFloat.sqrt x / 0 <? tol)%float = false.
Proof.
  rewrite ltb_spec, div_spec, sqrt_spec.
  apply SFltb_nan_or_inf.
  change (Prim2SF 0%float) with (S754_zero false).
  apply SF64div_by_zero, SF64sqrt_root_like.
Qed.

End FloatQuotients.

Section Unguarded.

Variable la_inv : ndarray float -> outcome (ndarray float).
Variable proximal_update_admm :
  ndarray float -> ndarray float -> float -> string -> list (string * float) ->
  outcome (ndarray float).

(** C6, as the code has it.  There is no test of a denominator: in a pass
    that returns, each residual is the binary64 quotient of the two norms,
    whatever they are.  When the norm of the new factor is zero the primal
    residual is NaN or [+infinity] and the primal criterion is false; when
    the norm of the new dual variable is zero the dual residual is NaN or
    [+infinity] and the dual criterion is false; in either case the pass
    ends the loop only through the iteration budget. *)
Theorem zero_denominator_unguarded (self : CPDADMM float) (su : setup float)
    (bsum : float) (v : vars float) (p : pass float) :
  admm_iter la_inv proximal_update_admm self su bsum v = Ok p ->
  (exists pdiff ddiff,
     np_sub (v_factor (p_vars p)) (p_factor_t p) = Ok pdiff /\
     np_sub (v_factor (p_vars p)) (v_factor v) = Ok ddiff /\
     prim_res p = (la_norm pdiff / la_norm (v_factor (p_vars p)))%float /\
     dual_res p = (la_norm ddiff / la_norm (v_dual_var (p_vars p)))%float) /\
  (la_norm (v_factor (p_vars p)) = 0%float ->
   (prim_res p = nan \/ prim_res p = infinity) /\ stop_criter1 self p = false) /\
  (la_norm (v_dual_var (p_vars p)) = 0%float ->
   (dual_res p = nan \/ dual_res p = infinity) /\ stop_criter2 self p = false) /\
  (la_norm (v_factor (p_vars p)) = 0%float \/
   la_norm (v_dual_var (p_vars p)) = 0%float ->
   stop self p = stop_criter3 self p).
Proof.
  intros E. apply admm_iter_Ok in E.
  destruct E as (L_inv & fd & rhs1 & rhs & prod & factor' & dsum & dual_var'
                 & pdiff & ddiff & EI & Efd & Er1 & Er & Ep & Ex & Eds & Edu
                 & Epd & Edd & ->).
  cbn [p_vars v_factor v_dual_var p_factor_t prim_res dual_res].
  assert (Z1 : la_norm factor' = 0%float ->
               stop_criter1 self
                 (Pass (np_T prod) (Vars factor' dual_var' (v_itr v + 1))
                    (sdiv (la_norm pdiff) (la_norm factor'))
                    (sdiv (la_norm ddiff) (la_norm dual_var'))) = false).
  { intros Hz. unfold stop_criter1. cbn [prim_res]. rewrite Hz.
    exact (norm_over_zero_not_below _ _). }
  assert (Z2 : la_norm dual_var' = 0%float ->
               stop_criter2 self
                 (Pass (np_T prod) (Vars factor' dual_var' (v_itr v + 1))
                    (sdiv (la_norm pdiff) (la_norm factor'))
                    (sdiv (la_norm ddiff) (la_norm dual_var'))) = false).
  { intros Hz. unfold stop_criter2. cbn [dual_res]. rewrite Hz.
    exact (norm_over_zero_not_below _ _). }
  split; [now exists pdiff, ddiff |].
  split.
  { intros Hz. split; [| exact (Z1 Hz)]. rewrite Hz.
    exact (norm_over_zero_value _). }
  split.
  { intros Hz. split; [| exact (Z2 Hz)]. rewrite Hz.
    exact (norm_over_zero_value _). }
  intros [Hz | Hz]; unfold stop.
  - now rewrite (Z1 Hz).
  - rewrite (Z2 Hz). now rewrite andb_false_r.
Qed.

End Unguarded.

(** The scenario of Section 8 of the specification, zero-initialised factor
    and dual variable under the no-op constraint: the dual variable stays
    zero, the dual criterion is false and the exit is by the budget. *)
Lemma zero_denominator_unguarded_witness :
  exists (su : setup float) (p : pass float),
    admm_setup (col2 3%float 4%float) (col2 1%float 2%float) (mat11 0%float)
      0%float = Ok su /\
    admm_iter inv_float prox_identity (solver_float 1%float 5) su 0%float
      (Vars (mat11 0%float) (mat11 0%float) 0) = Ok p /\
    la_norm (v_dual_var (p_vars p)) = 0%float /\
    stop_criter2 (solver_float 1%float 5) p = false.
Proof.
  eexists. eexists.
  split; [vm_compute; reflexivity |].
  match goal with
  | |- admm_iter _ _ ?self ?su ?b ?v = Ok ?p /\ _ =>
      assert (E : admm_iter inv_float prox_identity self su b v = Ok p)
        by (vm_compute; reflexivity);
      split; [exact E |];
      assert (Hz : la_norm (v_dual_var (p_vars p)) = 0%float)
        by (vm_compute; reflexivity);
      split; [exact Hz |];
      destruct (zero_denominator_unguarded inv_float prox_identity self su b v p E)
        as (_ & _ & Z2 & _);
      exact (proj2 (Z2 Hz))
  end.
Defined.

(** C6 fails on the code.  From a zero factor and a zero dual variable with
    zero data, the first pass returns, both denominators are zero, and both
    residuals are NaN; with the data of the run above the dual residual
    is [+infinity].  No exception is raised and no value is substituted. *)
Lemma zero_denominator_counterexample :
  (exists (su : setup float) (p : pass float),
     admm_setup (col2 0%float 0%float) (col2 1%float 2%float) (mat11 0%float)
       0%float = Ok su /\
     admm_iter inv_float prox_identity (solver_float 1%float 5) su 0%float
       (Vars (mat11 0%float) (mat11 0%float) 0) = Ok p /\
     la_norm (v_factor (p_vars p)) = 0%float /\
     la_norm (v_dual_var (p_vars p)) = 0%float /\
     PrimFloat.is_nan (prim_res p) = true /\
     PrimFloat.is_nan (dual_res p) = true /\
     stop (solver_float 1%float 5) p = false) /\
  (exists (su : setup float) (p : pass float),
     admm_setup (col2 3%float 4%float) (col2 1%float 2%float) (mat11 0%float)
       0%float = Ok su /\
     admm_iter inv_float prox_identity (solver_float 1%float 5) su 0%float
       (Vars (mat11 0%float) (mat11 0%float) 0) = Ok p /\
     la_norm (v_dual_var (p_vars p)) = 0%float /\
     dual_res p = infinity).
Proof.
  split; eexists; eexists;
    (split; [vm_compute; reflexivity |]);
    (split; [vm_compute; reflexivity |]);
    repeat split; vm_compute; reflexivity.
Qed.

(** ** What is checked, and when *)

Section ShapeErrors.

Context {T : Type} `{Scalar T}.

Variable la_inv : ndarray T -> outcome (ndarray T).
Variable proximal_update_admm :
  ndarray T -> ndarray T -> T -> string -> list (string * T) -> outcome (ndarray T).











End ShapeErrors.



Section Construction.

Context {T : Type} `{Scalar T}.

Variable la_inv : ndarray T -> outcome (ndarray T).
Variable proximal_update_admm :
  ndarray T -> ndarray T -> T -> string -> list (string * T) -> outcome (ndarray T).

(** C8, as the code has it.  The constructor stores its five arguments and
    returns: it rejects nothing (the rank is not among its arguments).  The
    constraint kind is looked at in a call: every pass hands it to the
    proximal dispatcher, the new factor of a returning pass is what the
    dispatcher answered for it, and with a kind the dispatcher raises on, no
    pass and no call returns. *)
Theorem construction_checks_nothing :
  (forall (tensor_mode : Z) (constraint : string) (hyperparams : list (string * T))
          (tol_error : T) (n_iters : option Z),
     CPDADMM_init tensor_mode constraint hyperparams tol_error n_iters =
     Ok (MkCPDADMM tensor_mode constraint hyperparams tol_error
           (match n_iters with Some n => n | None => (-1)%Z end)
           None None None None)) /\
  (forall (self : CPDADMM T) (su : setup T) (bsum : T) (v : vars T) (p : pass T),
     admm_iter la_inv proximal_update_admm self su bsum v = Ok p ->
     proximal_update_admm (p_factor_t p) (v_dual_var v) (rho su)
       (constraint self) (hyperparams self) = Ok (v_factor (p_vars p))) /\
  (forall (self : CPDADMM T) (e : exn),
     (forall x d r h,
        proximal_update_admm x d r (constraint self) h = Raised e) ->
     (forall su bsum v p,
        admm_iter la_inv proximal_update_admm self su bsum v <> Ok p) /\
     (forall fuel tu kr factor0 dual_var0 bsum r,
        CPDADMM_call la_inv proximal_update_admm fuel self tu kr factor0
          dual_var0 bsum <> Ok r)).
Proof.
  split; [reflexivity |]. split.
  - intros self su bsum v p E. apply admm_iter_Ok in E.
    destruct E as (L_inv & fd & rhs1 & rhs & prod & factor' & dsum & dual_var'
                   & pdiff & ddiff & _ & _ & _ & _ & _ & Ex & _ & _ & _ & _ & ->).
    exact Ex.
  - intros self e Rej.
    assert (NoPass : forall su bsum v p,
              admm_iter la_inv proximal_update_admm self su bsum v <> Ok p).
    { intros su bsum v p E. apply admm_iter_Ok in E.
      destruct E as (L_inv & fd & rhs1 & rhs & prod & factor' & dsum & dual_var'
                     & pdiff & ddiff & _ & _ & _ & _ & _ & Ex & _).
      rewrite Rej in Ex. discriminate. }
    split; [exact NoPass |].
    intros fuel tu kr factor0 dual_var0 bsum r E. unfold CPDADMM_call in E.
    apply bind_Ok in E. destruct E as (su & _ & E).
    apply bind_Ok in E. destruct E as (p & El & _).
    destruct fuel as [| fuel]; [discriminate |].
    simpl in El. apply bind_Ok in El. destruct El as (q & Eq & _).
    exact (NoPass _ _ _ _ Eq).
Qed.

End Construction.

(** A dispatcher that knows no kind: the solver is built all the same, and
    the error comes out of the call. *)
Lemma construction_checks_nothing_witness :
  CPDADMM_call inv_float prox_reject 1
    (MkCPDADMM 0 "no_such_kind" [] (-1)%float (-1) None None None None)
    (col2 3%float 4%float) (col2 1%float 2%float) (mat11 7%float)
    (mat11 1%float) 0%float = Raised (ProxError "no_such_kind").
Proof.
  destruct (construction_checks_nothing (T := float) inv_float prox_reject)
    as (_ & _ & Rej).
  destruct (Rej (MkCPDADMM 0 "no_such_kind" [] (-1)%float (-1) None None None None)
              (ProxError "no_such_kind")) as (_ & NoCall).
  - intros x d r h. reflexivity.
  - destruct (CPDADMM_call inv_float prox_reject 1 _ _ _ _ _ _) as [r | e | ] eqn:E.
    + exfalso. exact (NoCall _ _ _ _ _ _ _ E).
    + vm_compute in E. symmetry. exact E.
    + vm_compute in E. discriminate.
Defined.

(** C8 fails on the code.  A negative tolerance and a kind the dispatcher
    does not know: the constructor returns the object. *)
Lemma invalid_configuration_counterexample :
  exists s : CPDADMM float,
    CPDADMM_init 0 "no_such_kind" [] (-1)%float None = Ok s /\
    sltb (tol_error s) 0%float = true /\
    constraint s = "no_such_kind"%string /\
    forall (x d : ndarray float) r h, prox_reject x d r (constraint s) h
                    = Raised (ProxError "no_such_kind").
Proof.
  eexists. split; [reflexivity |]. split; [vm_compute; reflexivity |].
  split; [reflexivity |]. intros x d r h. reflexivity.
Qed.

(** ** The store model *)

Section StoreFacts.

Context {T : Type} `{Scalar T}.

Lemma extends_refl (s : store T) : extends s s.
Proof. exists []. now rewrite app_nil_r. Qed.

Lemma extends_trans (s1 s2 s3 : store T) :
  extends s1 s2 -> extends s2 s3 -> extends s1 s3.
Proof.
  intros (t & ->) (u & ->). exists (t ++ u)%list. now rewrite app_assoc.
Qed.

Lemma extends_length (s s' : store T) :
  extends s s' -> List.length s <= List.length s'.
Proof. intros (t & ->). rewrite length_app. lia. Qed.

(** An older buffer holds what it held. *)
Lemma extends_nth (s s' : store T) (n : nat) :
  extends s s' -> n < List.length s -> nth_error s' n = nth_error s n.
Proof. intros (t & ->) Hn. now apply nth_error_app1. Qed.

Lemma shows_valid (s : store T) (h : handle) (a : ndarray T) :
  shows s h a -> buf h < List.length s.
Proof.
  unfold shows, deref. intros E. apply nth_error_Some.
  destruct (nth_error s (buf h)); [discriminate | discriminate E].
Qed.

Lemma deref_extends (s s' : store T) (h : handle) :
  extends s s' -> buf h < List.length s -> deref s' h = deref s h.
Proof. intros X V. unfold deref. now rewrite (extends_nth s s' (buf h) X V). Qed.

Lemma shows_mono (s s' : store T) (h : handle) (a : ndarray T) :
  shows s h a -> extends s s' -> shows s' h a.
Proof.
  intros S X. unfold shows. rewrite (deref_extends s s' h X); [exact S |].
  exact (shows_valid s h a S).
Qed.

Lemma created_after_mono (s s' : store T) (h : handle) :
  extends s s' -> created_after (List.length s') h -> created_after (List.length s) h.
Proof. unfold created_after. intros X C. apply extends_length in X. lia. Qed.

Lemma np_T_involutive (a : ndarray T) : np_T (np_T a) = a.
Proof. now destruct a. Qed.

(** The view [h.T] shows the transpose of what [h] shows. *)
Lemma shows_T (s : store T) (h : handle) (a : ndarray T) :
  shows s h a -> shows s (Handle (buf h) (negb (transposed h))) (np_T a).
Proof.
  unfold shows, deref, view. simpl.
  destruct (nth_error s (buf h)) as [b |]; [| discriminate].
  simpl. intros E. injection E as <-.
  destruct (transposed h); simpl; [now rewrite np_T_involutive | reflexivity].
Qed.

Lemma shows_fresh (s : store T) (a : ndarray T) :
  shows (s ++ [a])%list (Handle (List.length s) false) a.
Proof.
  unfold shows, deref, view. simpl.
  rewrite nth_error_app2 by lia. now rewrite Nat.sub_diag.
Qed.

(** *** Runs that agree *)

Lemma refines_ret {A B : Type} (rel : store T -> A -> B -> Prop)
    (a : A) (b : B) (s : store T) :
  rel s a b -> refines rel (ret a) (Ok b) s.
Proof. intros R. unfold refines, ret. split; [apply extends_refl | exact R]. Qed.

Lemma refines_bind {A A' B B' : Type}
    (rel : store T -> A -> A' -> Prop) (rel' : store T -> B -> B' -> Prop)
    (m : M T A) (v : outcome A') (k : A -> M T B) (k' : A' -> outcome B')
    (s : store T) :
  refines rel m v s ->
  (forall a s' b, extends s s' -> rel s' a b -> refines rel' (k a) (k' b) s') ->
  refines rel' (bindM m k) (bind v k') s.
Proof.
  unfold refines, bindM. intros R K.
  destruct (m s) as [[a s'] | e | ], v as [b | e' | ]; simpl; try contradiction;
    try exact R.
  destruct R as [X R]. specialize (K a s' b X R). unfold refines in K.
  destruct (k a s') as [[c s''] | e | ], (k' b) as [d | e' | ];
    try contradiction; try exact K.
  destruct K as [X' R']. split; [exact (extends_trans _ _ _ X X') | exact R'].
Qed.

(** The same, when the value model has the result at hand. *)
Lemma refines_bind_pure {A A' B B' : Type}
    (rel : store T -> A -> A' -> Prop) (rel' : store T -> B -> B' -> Prop)
    (m : M T A) (b : A') (k : A -> M T B) (w : outcome B') (s : store T) :
  refines rel m (Ok b) s ->
  (forall a s', extends s s' -> rel s' a b -> refines rel' (k a) w s') ->
  refines rel' (bindM m k) w s.
Proof.
  unfold refines, bindM. intros R K.
  destruct (m s) as [[a s'] | e | ]; try contradiction.
  destruct R as [X R]. specialize (K a s' X R). unfold refines in K.
  destruct (k a s') as [[c s''] | e | ], w as [d | e' | ];
    try contradiction; try exact K.
  destruct K as [X' R']. split; [exact (extends_trans _ _ _ X X') | exact R'].
Qed.

Lemma refines_weaken {A B : Type} (rel rel' : store T -> A -> B -> Prop)
    (m : M T A) (v : outcome B) (s : store T) :
  (forall s' a b, extends s s' -> rel s' a b -> rel' s' a b) ->
  refines rel m v s -> refines rel' m v s.
Proof.
  unfold refines. intros W R.
  destruct (m s) as [[a s'] | e | ], v as [b | e' | ]; try contradiction;
    try exact R.
  destruct R as [X R]. split; [exact X | exact (W _ _ _ X R)].
Qed.

(** A run on the store that returned: the value run returned too. *)
Lemma refines_Ok {A B : Type} (rel : store T -> A -> B -> Prop)
    (m : M T A) (v : outcome B) (s s' : store T) (a : A) :
  refines rel m v s -> m s = Ok (a, s') ->
  exists b, v = Ok b /\ extends s s' /\ rel s' a b.
Proof.
  unfold refines. intros R E. rewrite E in R.
  destruct v as [b | e | ]; try contradiction.
  exists b. destruct R. repeat split; assumption.
Qed.

(** *** The operations *)

Lemma apply1_refines (f : ndarray T -> outcome (ndarray T)) (a : handle)
    (x : ndarray T) (s : store T) :
  shows s a x -> refines (made s) (apply1 f a) (f x) s.
Proof.
  intros Sa. unfold refines, apply1, bindM, read, lift, fresh.
  unfold shows in Sa. rewrite Sa.
  destruct (f x) as [z | e | ]; try reflexivity.
  split; [now exists [z] |]. split; [apply shows_fresh |].
  unfold created_after. simpl. lia.
Qed.

Lemma apply2_refines (f : ndarray T -> ndarray T -> outcome (ndarray T))
    (a b : handle) (x y : ndarray T) (s : store T) :
  shows s a x -> shows s b y -> refines (made s) (apply2 f a b) (f x y) s.
Proof.
  intros Sa Sb. unfold refines, apply2, bindM, read, lift, fresh.
  unfold shows in Sa, Sb. rewrite Sa, Sb.
  destruct (f x y) as [z | e | ]; try reflexivity.
  split; [now exists [z] |]. split; [apply shows_fresh |].
  unfold created_after. simpl. lia.
Qed.

Lemma measure_refines {A : Type} (f : ndarray T -> A) (a : handle)
    (x : ndarray T) (s : store T) :
  shows s a x -> refines (fun _ r r' => r = r') (measure f a) (Ok (f x)) s.
Proof.
  intros Sa. unfold refines, measure, bindM, read, ret.
  unfold shows in Sa. rewrite Sa. split; [apply extends_refl | reflexivity].
Qed.

Lemma h_T_refines (a : handle) (x : ndarray T) (s : store T) :
  shows s a x ->
  refines (fun s' h z => shows s' h z /\ buf h = buf a) (h_T a) (Ok (np_T x)) s.
Proof.
  intros Sa. apply refines_ret. split; [now apply shows_T | reflexivity].
Qed.

Lemma h_eye_refines (n : nat) (s : store T) :
  refines (made s) (h_eye n) (Ok (np_eye n)) s.
Proof.
  unfold refines, h_eye, fresh.
  split; [now exists [np_eye n] |]. split; [apply shows_fresh |].
  unfold created_after. simpl. lia.
Qed.

End StoreFacts.

(** *** The method on the store refines the method on values *)

(** After a step of a run: bring what is known of the store forward. *)
Ltac carry X :=
  repeat match goal with
         | S : shows _ _ _ |- _ => apply (fun S0 => shows_mono _ _ _ _ S0 X) in S
         end.

Ltac forward E0 X :=
  carry X; apply (fun E => extends_trans _ _ _ E X) in E0; clear X.

(** A step that makes a new array, by lemma [lem]. *)
Tactic Notation "makes" uconstr(lem) hyp(E0) :=
  eapply refines_bind; [eapply lem; eassumption |];
  let a := fresh "h" in
  let s' := fresh "s" in
  let b := fresh "x" in
  let X := fresh "X" in
  let S := fresh "S" in
  let C := fresh "C" in
  intros a s' b X [S C];
  apply (created_after_mono _ _ _ E0) in C;
  forward E0 X.

(** The same where the value model computes without a bind. *)
Tactic Notation "makes_pure" uconstr(lem) hyp(E0) :=
  eapply refines_bind_pure; [eapply lem; eassumption |];
  let a := fresh "h" in
  let s' := fresh "s" in
  let X := fresh "X" in
  let S := fresh "S" in
  let C := fresh "C" in
  intros a s' X [S C];
  try apply (created_after_mono _ _ _ E0) in C;
  forward E0 X.

(** A step that reads a number. *)
Ltac reads E0 :=
  eapply refines_bind_pure; [eapply measure_refines; eassumption |];
  let a := fresh "r" in
  let s' := fresh "s" in
  let X := fresh "X" in
  intros a s' X ->;
  forward E0 X.

Section Refinement.

Context {T : Type} `{Scalar T}.

Variable la_inv : ndarray T -> outcome (ndarray T).
Variable proximal_update_admm :
  ndarray T -> ndarray T -> T -> string -> list (string * T) -> outcome (ndarray T).

Lemma h_scalar_mul_refines (c : T) (a : handle) (x : ndarray T) (s : store T) :
  shows s a x -> refines (made s) (h_scalar_mul c a) (Ok (scalar_mul c x)) s.
Proof. exact (apply1_refines (fun x => Ok (scalar_mul c x)) a x s). Qed.

Lemma h_matmul_refines (a b : handle) (x y : ndarray T) (s : store T) :
  shows s a x -> shows s b y -> refines (made s) (h_matmul a b) (matmul x y) s.
Proof. exact (apply2_refines matmul a b x y s). Qed.

Lemma h_add_refines (a b : handle) (x y : ndarray T) (s : store T) :
  shows s a x -> shows s b y -> refines (made s) (h_add a b) (np_add x y) s.
Proof. exact (apply2_refines np_add a b x y s). Qed.

Lemma h_sub_refines (a b : handle) (x y : ndarray T) (s : store T) :
  shows s a x -> shows s b y -> refines (made s) (h_sub a b) (np_sub x y) s.
Proof. exact (apply2_refines np_sub a b x y s). Qed.

Lemma h_inv_refines (a : handle) (x : ndarray T) (s : store T) :
  shows s a x -> refines (made s) (h_inv la_inv a) (la_inv x) s.
Proof. exact (apply1_refines la_inv a x s). Qed.

Lemma h_prox_refines (a b : handle) (x y : ndarray T) (r : T) (c : string)
    (hp : list (string * T)) (s : store T) :
  shows s a x -> shows s b y ->
  refines (made s) (h_prox proximal_update_admm a b r c hp)
    (proximal_update_admm x y r c hp) s.
Proof.
  exact (apply2_refines (fun x d => proximal_update_admm x d r c hp) a b x y s).
Qed.

Lemma setup_h_refines (tu kr f0 : handle) (tu_v kr_v f0_v : ndarray T)
    (bsum : T) (s : store T) :
  shows s tu tu_v -> shows s kr kr_v -> shows s f0 f0_v ->
  refines (fun s' hs su => rel_setup s' hs su /\ h_factor_conv hs = f0)
    (setup_h tu kr f0 bsum) (admm_setup tu_v kr_v f0_v bsum) s.
Proof.
  intros St Sk Sf. pose proof (extends_refl s) as E0.
  unfold setup_h, admm_setup.
  reads E0.
  makes_pure h_T_refines E0.
  makes h_matmul_refines E0.
  reads E0.
  makes_pure h_eye_refines E0.
  makes_pure h_scalar_mul_refines E0.
  makes h_add_refines E0.
  makes_pure h_T_refines E0.
  makes h_matmul_refines E0.
  apply refines_ret. unfold rel_setup. simpl. repeat split; assumption.
Qed.

(** A pass: the two models agree, and the new factor and the new dual
    variable are new objects. *)
Lemma iter_h_refines (hself self : CPDADMM T) (hs : hsetup T) (su : setup T)
    (bsum : T) (hv : hvars) (v : vars T) (s : store T) :
  same_config hself self ->
  rel_setup s hs su -> rel_vars s hv v ->
  refines (fun s' hp p =>
             rel_pass s' hp p /\
             created_after (List.length s) (hv_factor (hp_vars hp)) /\
             created_after (List.length s) (hv_dual_var (hp_vars hp)))
    (iter_h la_inv proximal_update_admm hself hs bsum hv)
    (admm_iter la_inv proximal_update_admm self su bsum v) s.
Proof.
  intros (_ & Ec & Eh & _) (Er & SL & SF & SC) (Sf & Sd & Ei).
  pose proof (extends_refl s) as E0.
  unfold iter_h, admm_iter. rewrite Er, Ec, Eh.
  makes h_inv_refines E0.
  makes h_add_refines E0.
  makes_pure h_T_refines E0.
  makes_pure h_scalar_mul_refines E0.
  makes h_add_refines E0.
  makes_pure h_T_refines E0.
  makes_pure h_scalar_mul_refines E0.
  makes h_add_refines E0.
  makes h_matmul_refines E0.
  makes_pure h_T_refines E0.
  makes h_prox_refines E0.
  makes h_add_refines E0.
  makes h_sub_refines E0.
  makes h_sub_refines E0.
  reads E0.
  reads E0.
  makes h_sub_refines E0.
  reads E0.
  reads E0.
  apply refines_ret. unfold rel_pass, rel_vars. simpl.
  rewrite Ei. repeat split; assumption.
Qed.

Lemma stop_h_agrees (hself self : CPDADMM T) (hp : hpass T) (p : pass T)
    (s : store T) :
  same_config hself self -> rel_pass s hp p -> stop_h hself hp = stop self p.
Proof.
  intros (_ & _ & _ & Et & En) (_ & (_ & _ & Ei) & Ep & Ed).
  unfold stop_h, stop, stop_criter1, stop_criter2, stop_criter3.
  now rewrite Et, En, Ei, Ep, Ed.
Qed.

Lemma loop_h_refines (fuel : nat) (hself self : CPDADMM T) (hs : hsetup T)
    (su : setup T) (bsum : T) (hv : hvars) (v : vars T) (s : store T) :
  same_config hself self ->
  rel_setup s hs su -> rel_vars s hv v ->
  refines (fun s' hp p =>
             rel_pass s' hp p /\
             created_after (List.length s) (hv_factor (hp_vars hp)) /\
             created_after (List.length s) (hv_dual_var (hp_vars hp)))
    (loop_h la_inv proximal_update_admm fuel hself hs bsum hv)
    (admm_loop la_inv proximal_update_admm fuel self su bsum v) s.
Proof.
  intros Cf. revert hv v s. induction fuel as [| fuel IH]; intros hv v s Rs Rv.
  - exact I.
  - simpl. eapply refines_bind; [now apply iter_h_refines |].
    intros hp s' p X (Rp & C1 & C2).
    rewrite (stop_h_agrees _ _ _ _ _ Cf Rp). destruct (stop self p).
    + apply refines_ret. split; [exact Rp |]. split; assumption.
    + eapply refines_weaken; [| apply IH].
      * intros s'' hq q X' (Rq & D1 & D2). split; [exact Rq |].
        split; [exact (created_after_mono _ _ _ X D1)
               | exact (created_after_mono _ _ _ X D2)].
      * destruct Rs as (Er & SL & SF & SC).
        repeat split; try assumption; eapply shows_mono; eassumption.
      * destruct Rp as (_ & Rv' & _). exact Rv'.
Qed.

Lemma same_config_after_entry (self : CPDADMM T) (f0 d0 : handle) :
  same_config (set_dual_var_0 (set_factor_mat_0 self f0) d0) self.
Proof. repeat split. Qed.

(** The whole call. *)
Lemma call_h_refines (fuel : nat) (self : CPDADMM T) (tu kr f0 d0 : handle)
    (tu_v kr_v f0_v d0_v : ndarray T) (bsum : T) (s : store T) :
  shows s tu tu_v -> shows s kr kr_v -> shows s f0 f0_v -> shows s d0 d0_v ->
  refines (fun s' r r' =>
             fst r = set_dual_var_0 (set_factor_mat_0 self f0) d0 /\
             shows s' (fst (snd r)) (fst r') /\
             shows s' (snd (snd r)) (snd r') /\
             created_after (List.length s) (fst (snd r)) /\
             created_after (List.length s) (snd (snd r)))
    (call_h la_inv proximal_update_admm fuel self tu kr f0 d0 bsum)
    (CPDADMM_call la_inv proximal_update_admm fuel self tu_v kr_v f0_v d0_v bsum) s.
Proof.
  intros St Sk Sf Sd. unfold call_h, CPDADMM_call.
  eapply refines_bind; [now apply setup_h_refines |].
  intros hs s1 su X1 (Rs & Ef).
  eapply refines_bind.
  - apply loop_h_refines.
    + apply same_config_after_entry.
    + exact Rs.
    + repeat split; simpl; eapply shows_mono; eassumption.
  - intros hp s2 p X2 ((_ & (S1 & S2 & _) & _) & C1 & C2).
    apply refines_ret. simpl.
    split; [reflexivity |]. split; [exact S1 |]. split; [exact S2 |].
    split; [exact (created_after_mono _ _ _ X1 C1)
           | exact (created_after_mono _ _ _ X1 C2)].
Qed.

(** The fields that [__init__] does not set have no part in a call. *)
Lemma iter_h_config (a b : CPDADMM T) (hs : hsetup T) (bsum : T) (hv : hvars) :
  same_config a b ->
  iter_h la_inv proximal_update_admm a hs bsum hv =
  iter_h la_inv proximal_update_admm b hs bsum hv.
Proof.
  intros (_ & Ec & Eh & _). unfold iter_h. now rewrite Ec, Eh.
Qed.

Lemma loop_h_config (fuel : nat) (a b : CPDADMM T) (hs : hsetup T) (bsum : T)
    (hv : hvars) (s : store T) :
  same_config a b ->
  loop_h la_inv proximal_update_admm fuel a hs bsum hv s =
  loop_h la_inv proximal_update_admm fuel b hs bsum hv s.
Proof.
  intros Cf. revert hv s. induction fuel as [| fuel IH]; intros hv s.
  - reflexivity.
  - simpl. unfold bindM. rewrite (iter_h_config a b hs bsum hv Cf).
    destruct (iter_h _ _ b hs bsum hv s) as [[p s'] | e | ]; try reflexivity.
    assert (Es : stop_h a p = stop_h b p).
    { destruct Cf as (_ & _ & _ & Et & En). unfold stop_h. now rewrite Et, En. }
    rewrite Es. destruct (stop_h b p); [reflexivity | apply IH].
Qed.

Lemma call_h_config (fuel : nat) (a b : CPDADMM T) (tu kr f0 d0 : handle)
    (bsum : T) (s s' : store T) (a' : CPDADMM T) (r : handle * handle) :
  same_config b a ->
  call_h la_inv proximal_update_admm fuel a tu kr f0 d0 bsum s = Ok ((a', r), s') ->
  call_h la_inv proximal_update_admm fuel b tu kr f0 d0 bsum s =
  Ok ((set_dual_var_0 (set_factor_mat_0 b f0) d0, r), s').
Proof.
  intros Cf. unfold call_h, bindM.
  destruct (setup_h tu kr f0 bsum s) as [[hs s1] | e | ]; try discriminate.
  rewrite (loop_h_config fuel
             (set_dual_var_0 (set_factor_mat_0 b f0) d0)
             (set_dual_var_0 (set_factor_mat_0 a f0) d0)).
  - destruct (loop_h _ _ fuel _ hs bsum _ s1) as [[p s2] | e | ]; try discriminate.
    unfold ret. intros E. injection E as _ <- <-. reflexivity.
  - destruct Cf as (C1 & C2 & C3 & C4 & C5). repeat split; assumption.
Qed.

End Refinement.

(** ** What a call leaves behind *)

Section Frame.

Context {T : Type} `{Scalar T}.

Variable la_inv : ndarray T -> outcome (ndarray T).
Variable proximal_update_admm :
  ndarray T -> ndarray T -> T -> string -> list (string * T) -> outcome (ndarray T).

Local Notation "'call'" := (call_h la_inv proximal_update_admm).

(** C9.  When a call returns, [factor_mat_0] and [dual_var_0] are bound to
    the two objects the caller passed as [factor] and [dual_var], and these
    objects hold the matrices they held at entry; the configured fields are
    as before.  What the call returns are the matrices the method computes
    on values from the four arguments, [bsum] and the configuration, and a
    solver that differs only in the four fields [__init__] does not set
    returns the same objects and leaves the same store. *)
Theorem diagnostic_fields_hold_entry_state (fuel : nat) (self : CPDADMM T)
    (tu kr f0 d0 : handle) (tu_v kr_v f0_v d0_v : ndarray T) (bsum : T)
    (s s' : store T) (self' : CPDADMM T) (hf hd : handle) :
  shows s tu tu_v -> shows s kr kr_v -> shows s f0 f0_v -> shows s d0 d0_v ->
  call fuel self tu kr f0 d0 bsum s = Ok ((self', (hf, hd)), s') ->
  (factor_mat_0 self' = Some f0 /\ dual_var_0 self' = Some d0 /\
   shows s' f0 f0_v /\ shows s' d0 d0_v /\ same_config self' self) /\
  (exists f d,
     CPDADMM_call la_inv proximal_update_admm fuel self tu_v kr_v f0_v d0_v bsum
       = Ok (f, d) /\
     shows s' hf f /\ shows s' hd d) /\
  (forall self2 : CPDADMM T,
     same_config self2 self ->
     (exists self2', call fuel self2 tu kr f0 d0 bsum s = Ok ((self2', (hf, hd)), s')) /\
     CPDADMM_call la_inv proximal_update_admm fuel self2 tu_v kr_v f0_v d0_v bsum =
     CPDADMM_call la_inv proximal_update_admm fuel self tu_v kr_v f0_v d0_v bsum).
Proof.
  intros St Sk Sf Sd E.
  pose proof (call_h_refines la_inv proximal_update_admm fuel self tu kr f0 d0
                tu_v kr_v f0_v d0_v bsum s St Sk Sf Sd) as R.
  destruct (refines_Ok _ _ _ _ _ _ R E) as ([f d] & Ev & X & Es & Shf & Shd & _).
  simpl in Es, Shf, Shd. subst self'.
  split; [| split].
  - split; [reflexivity |]. split; [reflexivity |].
    split; [exact (shows_mono _ _ _ _ Sf X) |].
    split; [exact (shows_mono _ _ _ _ Sd X) |].
    apply same_config_after_entry.
  - exists f, d. repeat split; assumption.
  - intros self2 Cf. split.
    + eexists. exact (call_h_config la_inv proximal_update_admm fuel self self2
                        tu kr f0 d0 bsum s s' _ (hf, hd) Cf E).
    + pose proof (call_h_refines la_inv proximal_update_admm fuel self2 tu kr f0 d0
                    tu_v kr_v f0_v d0_v bsum s St Sk Sf Sd) as R2.
      pose proof (call_h_config la_inv proximal_update_admm fuel self self2
                    tu kr f0 d0 bsum s s' _ (hf, hd) Cf E) as E2.
      destruct (refines_Ok _ _ _ _ _ _ R2 E2) as ([f2 d2] & Ev2 & _ & _ & Shf2 & Shd2 & _).
      simpl in Shf2, Shd2. rewrite Ev, Ev2. unfold shows in *.
      rewrite Shf in Shf2. rewrite Shd in Shd2.
      injection Shf2 as <-. injection Shd2 as <-. reflexivity.
Qed.

(** C10.  When a call returns, the store is the store at entry with buffers
    added: every buffer that was there holds what it held, so the caller's
    four arrays read as at entry; and the two arrays returned are objects
    made during the call, on buffers that none of the four arguments
    uses. *)
Theorem call_writes_no_argument (fuel : nat) (self : CPDADMM T)
    (tu kr f0 d0 : handle) (tu_v kr_v f0_v d0_v : ndarray T) (bsum : T)
    (s s' : store T) (self' : CPDADMM T) (hf hd : handle) :
  shows s tu tu_v -> shows s kr kr_v -> shows s f0 f0_v -> shows s d0 d0_v ->
  call fuel self tu kr f0 d0 bsum s = Ok ((self', (hf, hd)), s') ->
  extends s s' /\
  (forall n, n < List.length s -> nth_error s' n = nth_error s n) /\
  (shows s' tu tu_v /\ shows s' kr kr_v /\ shows s' f0 f0_v /\ shows s' d0 d0_v) /\
  (List.length s <= buf hf < List.length s' /\
   List.length s <= buf hd < List.length s') /\
  (forall h, In h [tu; kr; f0; d0] -> buf hf <> buf h /\ buf hd <> buf h).
Proof.
  intros St Sk Sf Sd E.
  pose proof (call_h_refines la_inv proximal_update_admm fuel self tu kr f0 d0
                tu_v kr_v f0_v d0_v bsum s St Sk Sf Sd) as R.
  destruct (refines_Ok _ _ _ _ _ _ R E) as ([f d] & Ev & X & _ & Shf & Shd & Cf & Cd).
  simpl in Shf, Shd, Cf, Cd. unfold created_after in Cf, Cd.
  split; [exact X |].
  split; [intros n Hn; now apply extends_nth |].
  split; [repeat split; eapply shows_mono; eassumption |].
  pose proof (shows_valid _ _ _ Shf). pose proof (shows_valid _ _ _ Shd).
  split; [lia |].
  intros h [<- | [<- | [<- | [<- | []]]]];
    match goal with
    | S : shows s ?h _ |- _ /\ buf _ <> buf ?h =>
        pose proof (shows_valid _ _ _ S); lia
    end.
Qed.

End Frame.

(** A call at binary64 on the caller's store, from a solver whose unset
    fields hold stale handles. *)
Lemma diagnostic_fields_hold_entry_state_witness :
  exists (self' : CPDADMM float) (hf hd : handle) (s' : store float),
    call_h inv_float prox_identity 1
      (MkCPDADMM 0 "identity" [] 0%float 1 (Some (arg 1)) None None (Some (arg 0)))
      (arg 0) (arg 1) (arg 2) (arg 3) 0%float caller_store
    = Ok ((self', (hf, hd)), s') /\
    factor_mat_0 self' = Some (arg 2) /\
    dual_var_0 self' = Some (arg 3) /\
    shows s' (arg 2) (mat11 7%float).
Proof.
  eexists. eexists. eexists. eexists.
  match goal with
  | |- ?c = Ok ((?a, (?hf, ?hd)), ?s') /\ _ =>
      assert (E : c = Ok ((a, (hf, hd)), s')) by (vm_compute; reflexivity);
      split; [exact E |];
      destruct (diagnostic_fields_hold_entry_state inv_float prox_identity 1
                  (MkCPDADMM 0 "identity" [] 0%float 1 (Some (arg 1)) None None
                     (Some (arg 0)))
                  (arg 0) (arg 1) (arg 2) (arg 3)
                  (col2 3%float 4%float) (col2 1%float 2%float) (mat11 7%float)
                  (mat11 1%float) 0%float caller_store s' a hf hd)
        as ((F1 & F2 & F3 & _) & _);
        first [exact E | reflexivity | idtac]
  end.
  repeat split; assumption.
Defined.

Lemma call_writes_no_argument_witness :
  exists (self' : CPDADMM float) (hf hd : handle) (s' : store float),
    call_h inv_float prox_identity 1 (solver_float 0%float 1)
      (arg 0) (arg 1) (arg 2) (arg 3) 0%float caller_store
    = Ok ((self', (hf, hd)), s') /\
    4 <= buf hf /\ 4 <= buf hd /\
    shows s' (arg 2) (mat11 7%float) /\ shows s' (arg 3) (mat11 1%float).
Proof.
  eexists. eexists. eexists. eexists.
  match goal with
  | |- ?c = Ok ((?a, (?hf, ?hd)), ?s') /\ _ =>
      assert (E : c = Ok ((a, (hf, hd)), s')) by (vm_compute; reflexivity);
      split; [exact E |];
      destruct (call_writes_no_argument inv_float prox_identity 1
                  (solver_float 0%float 1)
                  (arg 0) (arg 1) (arg 2) (arg 3)
                  (col2 3%float 4%float) (col2 1%float 2%float) (mat11 7%float)
                  (mat11 1%float) 0%float caller_store s' a hf hd)
        as (_ & _ & (_ & _ & A3 & A4) & ((B1 & _) & (B2 & _)) & _);
        first [exact E | reflexivity | idtac]
  end.
  repeat split; assumption.
Defined.

(** * Further properties of [__call__] *)

(** ** How a run can end *)

Lemma bind_Raised {A B : Type} (m : outcome A) (k : A -> outcome B) (e : exn) :
  bind m k = Raised e -> m = Raised e \/ exists a, m = Ok a /\ k a = Raised e.
Proof.
  destruct m as [a | e' | ]; simpl; intros E; try discriminate.
  - right. now exists a.
  - left. injection E as ->. reflexivity.
Qed.

Lemma bind_OutOfFuel {A B : Type} (m : outcome A) (k : A -> outcome B) :
  bind m k = OutOfFuel -> m = OutOfFuel \/ exists a, m = Ok a /\ k a = OutOfFuel.
Proof.
  destruct m as [a | e' | ]; simpl; intros E; try discriminate.
  - right. now exists a.
  - now left.
Qed.

Section Endings.

Context {T : Type} `{Scalar T}.

Lemma matmul_answers (a b : ndarray T) : matmul a b <> OutOfFuel.
Proof. unfold matmul. destruct (_ =? _); discriminate. Qed.

Lemma broadcast2_answers (f : T -> T -> T) (a b : ndarray T) :
  broadcast2 f a b <> OutOfFuel.
Proof.
  unfold broadcast2. destruct (bdim _ _); [destruct (bdim _ _) |]; discriminate.
Qed.

Lemma matmul_agree (a b : ndarray T) :
  ncols a = nrows b -> exists c, matmul a b = Ok c.
Proof.
  intros E. unfold matmul. rewrite E, Nat.eqb_refl. now eexists.
Qed.

Lemma admm_setup_answers (tu kr factor0 : ndarray T) (bsum : T) :
  admm_setup tu kr factor0 bsum <> OutOfFuel.
Proof.
  unfold admm_setup. intros E.
  repeat match type of E with
         | bind _ _ = OutOfFuel =>
             apply bind_OutOfFuel in E; destruct E as [E | (? & _ & E)]
         end;
    try discriminate;
    first [exact (matmul_answers _ _ E) | exact (broadcast2_answers _ _ _ E)].
Qed.

Variable la_inv : ndarray T -> outcome (ndarray T).
Variable proximal_update_admm :
  ndarray T -> ndarray T -> T -> string -> list (string * T) -> outcome (ndarray T).

Local Notation "'iter'" := (admm_iter la_inv proximal_update_admm).
Local Notation "'loop'" := (admm_loop la_inv proximal_update_admm).

Hypothesis inv_ans : inv_answers la_inv.
Hypothesis prox_ans : prox_answers proximal_update_admm.

Lemma admm_iter_answers (self : CPDADMM T) (su : setup T) (bsum : T) (v : vars T) :
  iter self su bsum v <> OutOfFuel.
Proof.
  unfold admm_iter. intros E.
  repeat match type of E with
         | bind _ _ = OutOfFuel =>
             apply bind_OutOfFuel in E; destruct E as [E | (? & _ & E)]
         end;
    try discriminate;
    first [ exact (matmul_answers _ _ E)
          | exact (broadcast2_answers _ _ _ E)
          | exact (inv_ans _ E)
          | exact (prox_ans _ _ _ _ _ E) ].
Qed.

(** With fuel for the passes the budget still allows, the loop ends. *)
Lemma loop_ends (fuel : nat) (self : CPDADMM T) (su : setup T) (bsum : T)
    (v : vars T) :
  0 < fuel -> (n_iters self - v_itr v <= Z.of_nat fuel)%Z ->
  loop fuel self su bsum v <> OutOfFuel.
Proof.
  revert v. induction fuel as [| fuel IH]; intros v Pos B; [lia |].
  simpl. intros E. apply bind_OutOfFuel in E.
  destruct E as [E | (p & Ep & E)]; [exact (admm_iter_answers _ _ _ _ E) |].
  destruct (stop self p) eqn:St; [discriminate |].
  apply orb_false_iff in St. destruct St as [_ S3].
  unfold stop_criter3 in S3. apply Z.leb_gt in S3.
  pose proof (iter_counter _ _ _ _ _ _ _ Ep) as Ec.
  apply (IH (p_vars p)); [lia | lia | exact E].
Qed.

(** X1.  A call makes one pass at least and [max(1, n_iters)] passes at
    most: the counter of the pass the loop returns lies between the two, and
    with fuel for that many passes the loop, and the call, return or
    raise. *)
Theorem passes_are_bounded (self : CPDADMM T) (su : setup T) (bsum : T)
    (factor0 dual_var0 : ndarray T) :
  (forall (fuel : nat) (p : pass T),
     loop fuel self su bsum (Vars factor0 dual_var0 0) = Ok p ->
     (1 <= v_itr (p_vars p) <= max_passes self)%Z) /\
  (forall fuel : nat,
     (max_passes self <= Z.of_nat fuel)%Z ->
     loop fuel self su bsum (Vars factor0 dual_var0 0) <> OutOfFuel) /\
  (forall (fuel : nat) (tu kr : ndarray T),
     (max_passes self <= Z.of_nat fuel)%Z ->
     CPDADMM_call la_inv proximal_update_admm fuel self tu kr factor0 dual_var0 bsum
       <> OutOfFuel).
Proof.
  unfold max_passes.
  assert (Ends : forall fuel su',
            (Z.max 1 (n_iters self) <= Z.of_nat fuel)%Z ->
            loop fuel self su' bsum (Vars factor0 dual_var0 0) <> OutOfFuel).
  { intros fuel su' B. apply loop_ends; simpl; lia. }
  split; [| split].
  - intros fuel p E. apply loop_returns_first_stop in E.
    destruct E as (n & _ & En & Sn & Before).
    pose proof (nth_pass_counter _ _ _ _ _ _ _ _ En) as Ec. simpl in Ec.
    split; [lia |].
    destruct n as [| n]; [lia |].
    destruct (Before n) as (q & Eq & Sq); [lia |].
    apply orb_false_iff in Sq. destruct Sq as [_ S3].
    unfold stop_criter3 in S3. apply Z.leb_gt in S3.
    pose proof (nth_pass_counter _ _ _ _ _ _ _ _ Eq) as Ec'. simpl in Ec'. lia.
  - intros fuel B. now apply Ends.
  - intros fuel tu kr B E. unfold CPDADMM_call in E.
    apply bind_OutOfFuel in E.
    destruct E as [E | (su' & _ & E)]; [exact (admm_setup_answers _ _ _ _ E) |].
    apply bind_OutOfFuel in E.
    destruct E as [E | (p & _ & E)]; [exact (Ends _ _ B E) | discriminate].
Qed.

End Endings.

Lemma inv_cofactor_answers {T : Type} `{Scalar T} (is_zero : T -> bool) :
  inv_answers (inv_cofactor is_zero).
Proof.
  intros a. unfold inv_cofactor.
  destruct (negb _); [discriminate |]. destruct (is_zero _); discriminate.
Qed.

Lemma prox_identity_answers {T : Type} `{Scalar T} :
  prox_answers (@prox_identity T).
Proof. intros x d r c h. discriminate. Qed.

(** A budget of three and a tolerance no residual is below: three passes. *)
Lemma passes_are_bounded_witness :
  exists (su : setup float) (p : pass float),
    admm_setup (col2 3%float 4%float) (col2 1%float 2%float) (mat11 7%float)
      0%float = Ok su /\
    admm_loop inv_float prox_identity 3 (solver_float 0%float 3) su 0%float
      (Vars (mat11 7%float) (mat11 1%float) 0) = Ok p /\
    (1 <= v_itr (p_vars p) <= 3)%Z.
Proof.
  eexists. eexists.
  split; [vm_compute; reflexivity |].
  match goal with
  | |- admm_loop _ _ ?fuel ?self ?su ?b (Vars ?f ?d _) = Ok ?p /\ _ =>
      assert (E : admm_loop inv_float prox_identity fuel self su b (Vars f d 0)
                  = Ok p) by (vm_compute; reflexivity);
      split; [exact E |];
      destruct (passes_are_bounded inv_float prox_identity
                  (inv_cofactor_answers _) prox_identity_answers self su b f d)
        as (Bound & _);
      exact (Bound fuel p E)
  end.
Defined.

(** ** What a call returns, and what it can raise *)

Section Provenance.

Context {T : Type} `{Scalar T}.

Variable la_inv : ndarray T -> outcome (ndarray T).
Variable proximal_update_admm :
  ndarray T -> ndarray T -> T -> string -> list (string * T) -> outcome (ndarray T).

Local Notation "'iter'" := (admm_iter la_inv proximal_update_admm).
Local Notation "'loop'" := (admm_loop la_inv proximal_update_admm).

(** What the loop returns is what its last pass returned. *)
Lemma loop_last_pass (fuel : nat) (self : CPDADMM T) (su : setup T) (bsum : T)
    (v : vars T) (p : pass T) :
  loop fuel self su bsum v = Ok p ->
  exists v', iter self su bsum v' = Ok p /\ stop self p = true.
Proof.
  revert v. induction fuel as [| fuel IH]; intros v E; [discriminate |].
  simpl in E. apply bind_Ok in E. destruct E as (q & Eq & E).
  destruct (stop self q) eqn:St.
  - injection E as <-. now exists v.
  - exact (IH _ E).
Qed.

(** X3.  The factor a call returns is a value the proximal dispatcher
    returned, for the constraint and the hyperparameters of the solver and
    the step size of the call, and the dual variable it returns is the dual
    variable before that pass, plus this factor, minus the estimate the
    dispatcher was given.  So the factor has every property the dispatcher
    gives its results, and a call does not hand back its arguments. *)
Theorem returned_factor_is_proximal (fuel : nat) (self : CPDADMM T)
    (tu kr factor0 dual_var0 : ndarray T) (bsum : T) (f d : ndarray T) :
  CPDADMM_call la_inv proximal_update_admm fuel self tu kr factor0 dual_var0 bsum
    = Ok (f, d) ->
  (exists (su : setup T) (estimate dual_before dsum : ndarray T),
     admm_setup tu kr factor0 bsum = Ok su /\
     proximal_update_admm estimate dual_before (rho su)
       (constraint self) (hyperparams self) = Ok f /\
     np_add dual_before f = Ok dsum /\
     np_sub dsum estimate = Ok d) /\
  (forall P : ndarray T -> Prop,
     (forall x y r c h z, proximal_update_admm x y r c h = Ok z -> P z) -> P f).
Proof.
  intros E. unfold CPDADMM_call in E.
  apply bind_Ok in E. destruct E as (su & Es & E).
  apply bind_Ok in E. destruct E as (p & Ep & E). injection E as <- <-.
  apply loop_last_pass in Ep. destruct Ep as (v' & Ep & _).
  apply admm_iter_Ok in Ep.
  destruct Ep as (L_inv & fd & rhs1 & rhs & prod & factor' & dsum & dual_var'
                  & pdiff & ddiff & _ & _ & _ & _ & _ & Ex & Eds & Edu & _ & _ & ->).
  simpl. split.
  - exists su, (np_T prod), (v_dual_var v'), dsum. repeat split; assumption.
  - intros P HP. exact (HP _ _ _ _ _ _ Ex).
Qed.

Hypothesis inv_shape : inv_keeps_shape la_inv.
Hypothesis prox_shape : prox_keeps_shape proximal_update_admm.

(** On well-shaped input the set-up returns. *)
Lemma admm_setup_returns (tu kr factor0 : ndarray T) (bsum : T) (J I R : nat) :
  shape tu = (J, I) -> shape kr = (J, R) -> shape factor0 = (I, R) ->
  exists su, admm_setup tu kr factor0 bsum = Ok su.
Proof.
  unfold shape. intros St Sk Sf.
  injection St as Jt It. injection Sk as Jk Rk. injection Sf as If Rf.
  unfold admm_setup.
  destruct (matmul_agree (np_T kr) kr) as (G & EG); [reflexivity |].
  rewrite EG. cbn [bind].
  pose proof (matmul_Ok _ _ _ EG) as [_ DG].
  assert (SG : shape G = (R, R)).
  { rewrite DG. unfold shape. simpl. congruence. }
  rewrite Rf.
  destruct (broadcast2_same sadd G
              (scalar_mul (sadd (sdiv (np_trace G) (s_of_nat R)) bsum) (np_eye R))
              R R SG eq_refl) as (Lm & EL & _).
  unfold np_add. rewrite EL. cbn [bind].
  destruct (matmul_agree (np_T kr) tu) as (Fm & EF); [simpl; congruence |].
  rewrite EF. cbn [bind]. now eexists.
Qed.

(** On well-shaped variables a pass raises what [la.inv] raised or what the
    dispatcher raised. *)
Lemma pass_raises_from_parameters (self : CPDADMM T) (su : setup T) (bsum : T)
    (v : vars T) (e : exn) (I R : nat) :
  setup_shapes I R su -> vars_shapes I R v ->
  iter self su bsum v = Raised e ->
  la_inv (L su) = Raised e \/
  exists x, proximal_update_admm x (v_dual_var v) (rho su)
              (constraint self) (hyperparams self) = Raised e.
Proof.
  intros (SL & SF & SC) (Sf & Sd). unfold admm_iter.
  destruct (la_inv (L su)) as [L_inv | e' | ] eqn:EI; cbn [bind];
    [| intros E; left; injection E as ->; reflexivity | discriminate].
  pose proof (inv_shape _ _ EI) as SLi. rewrite SL in SLi.
  destruct (broadcast2_same sadd _ _ I R Sf Sd) as (fd & Efd & Sfd & _).
  unfold np_add at 1. rewrite Efd. cbn [bind].
  assert (St1 : shape (scalar_mul (rho su) (np_T fd)) = (R, I))
    by (rewrite shape_scalar_mul; now apply shape_np_T).
  destruct (broadcast2_same sadd _ _ R I SF St1) as (rhs1 & Er1 & Sr1 & _).
  unfold np_add at 1. rewrite Er1. cbn [bind].
  assert (St2 : shape (scalar_mul bsum (np_T (factor_conv su))) = (R, I))
    by (rewrite shape_scalar_mul; now apply shape_np_T).
  destruct (broadcast2_same sadd _ _ R I Sr1 St2) as (rhs & Er & Sr & _).
  unfold np_add at 1. rewrite Er. cbn [bind].
  destruct (matmul_agree L_inv rhs) as (prod & Ep).
  { unfold shape in SLi, Sr. congruence. }
  rewrite Ep. cbn [bind].
  pose proof (matmul_Ok _ _ _ Ep) as [_ Dp].
  assert (St : shape (np_T prod) = (I, R)).
  { rewrite Dp. unfold shape in *. simpl. congruence. }
  destruct (proximal_update_admm (np_T prod) _ _ _ _) as [factor' | e' | ] eqn:Ex;
    cbn [bind];
    [| intros E; right; exists (np_T prod); injection E as ->; exact Ex
     | discriminate].
  pose proof (prox_shape _ _ _ _ _ _ Ex) as Sx. rewrite St in Sx.
  destruct (broadcast2_same sadd _ _ I R Sd Sx) as (dsum & Eds & Sds & _).
  unfold np_add at 1. rewrite Eds. cbn [bind].
  destruct (broadcast2_same ssub _ _ I R Sds St) as (du & Edu & _).
  unfold np_sub at 1. rewrite Edu. cbn [bind].
  destruct (broadcast2_same ssub _ _ I R Sx St) as (pd & Epd & _).
  unfold np_sub at 1. rewrite Epd. cbn [bind].
  destruct (broadcast2_same ssub _ _ I R Sx Sf) as (dd & Edd & _).
  unfold np_sub at 1. rewrite Edd. cbn [bind]. discriminate.
Qed.

(** X4.  On input of the shapes of the specification, with an inverse and a
    dispatcher that keep shapes, [__call__] raises nothing of its own: the
    set-up returns, and an exception that comes out of a call was raised by
    [la.inv] on the system matrix or by the dispatcher on the solver's
    constraint and hyperparameters. *)
Theorem only_parameters_raise (fuel : nat) (self : CPDADMM T)
    (tu kr factor0 dual_var0 : ndarray T) (bsum : T) (J I R : nat) (e : exn) :
  shape tu = (J, I) -> shape kr = (J, R) ->
  shape factor0 = (I, R) -> shape dual_var0 = (I, R) ->
  CPDADMM_call la_inv proximal_update_admm fuel self tu kr factor0 dual_var0 bsum
    = Raised e ->
  exists su, admm_setup tu kr factor0 bsum = Ok su /\
    (la_inv (L su) = Raised e \/
     exists x y, proximal_update_admm x y (rho su)
                   (constraint self) (hyperparams self) = Raised e).
Proof.
  intros St Sk Sf Sd E.
  destruct (admm_setup_returns tu kr factor0 bsum J I R St Sk Sf) as (su & Es).
  exists su. split; [exact Es |].
  pose proof (admm_setup_shapes _ _ _ _ _ _ _ _ St Sk Sf Es) as Ss.
  unfold CPDADMM_call in E. rewrite Es in E. cbn [bind] in E.
  apply bind_Raised in E. destruct E as [E | (p & _ & E)]; [| discriminate].
  assert (S0 : vars_shapes I R (Vars factor0 dual_var0 0)) by now split.
  revert E S0. generalize (Vars factor0 dual_var0 0).
  induction fuel as [| fuel IH]; intros v E Sv; [discriminate |].
  simpl in E. apply bind_Raised in E. destruct E as [E | (p & Ep & E)].
  - destruct (pass_raises_from_parameters _ _ _ _ _ _ _ Ss Sv E) as [A | (x & A)].
    + now left.
    + right. now exists x, (v_dual_var v).
  - destruct (stop self p); [discriminate |].
    destruct (pass_shapes la_inv proximal_update_admm inv_shape prox_shape
                _ _ _ _ _ _ _ Ss Sv Ep) as (_ & _ & _ & Sp).
    exact (IH _ E Sp).
Qed.

End Provenance.

Lemma prox_nonneg_no_negative (x y : ndarray float) (r : float) (c : string)
    (h : list (string * float)) (z : ndarray float) :
  prox_nonneg x y r c h = Ok z -> no_negative_entry z.
Proof.
  intros E. injection E as <-. intros i j. simpl.
  destruct (item x i j <? 0)%float eqn:N; [reflexivity | exact N].
Qed.

(** Negative data, a zero start, the nonnegativity dispatcher: the factor
    returned has no negative entry. *)
Lemma returned_factor_is_proximal_witness :
  exists f d : ndarray float,
    CPDADMM_call inv_float prox_nonneg 2 (solver_float 0%float 2)
      (col2 (-3)%float (-4)%float) (col2 1%float 2%float) (mat11 0%float)
      (mat11 0%float) 0%float = Ok (f, d) /\
    no_negative_entry f.
Proof.
  eexists. eexists.
  match goal with
  | |- ?call = Ok (?f, ?d) /\ _ =>
      assert (E : call = Ok (f, d)) by (vm_compute; reflexivity);
      split; [exact E |];
      destruct (returned_factor_is_proximal inv_float prox_nonneg 2
                  (solver_float 0%float 2)
                  (col2 (-3)%float (-4)%float) (col2 1%float 2%float)
                  (mat11 0%float) (mat11 0%float) 0%float f d E) as (_ & Inherit)
  end.
  apply Inherit. exact prox_nonneg_no_negative.
Defined.

Lemma prox_reject_shape {T : Type} `{Scalar T} : prox_keeps_shape (@prox_reject T).
Proof. intros x d r c h y E. discriminate. Qed.

(** Well-shaped input and a dispatcher that raises: the set-up returned and
    the exception is the dispatcher's. *)
Lemma only_parameters_raise_witness :
  exists su : setup float,
    admm_setup (col2 3%float 4%float) (col2 1%float 2%float) (mat11 7%float)
      0%float = Ok su /\
    (inv_float (L su) = Raised (ProxError "identity") \/
     exists x y, prox_reject x y (rho su) "identity"%string []
                 = Raised (ProxError "identity")).
Proof.
  destruct (only_parameters_raise inv_float prox_reject
              (inv_cofactor_shape _) prox_reject_shape
              1 (solver_float 0%float 1)
              (col2 3%float 4%float) (col2 1%float 2%float) (mat11 7%float)
              (mat11 1%float) 0%float 2 1 1 (ProxError "identity"))
    as (su & Es & Src); try reflexivity.
  exists su. split; [exact Es | exact Src].
Defined.

(** ** The step size and the ridge update over the reals *)

Section RealFacts.

Local Open Scope R_scope.

Lemma rsum_pos_term (n : nat) (f : nat -> R) :
  (forall k, (k < n)%nat -> 0 <= f k) ->
  0 < sum_upto n f -> exists k, (k < n)%nat /\ 0 < f k.
Proof.
  induction n as [| n IH]; intros P S; simpl in S; [lra |].
  destruct (Rlt_dec 0 (f n)) as [Pn | Nn].
  - exists n. split; [lia | exact Pn].
  - assert (Zn : f n = 0) by (pose proof (P n ltac:(lia)); lra).
    destruct IH as (k & Hk & Pk).
    + intros k Hk. apply P. lia.
    + lra.
    + exists k. split; [lia | exact Pk].
Qed.

Lemma trace_gram_nonneg (J n : nat) (K : nat -> nat -> R) :
  0 <= trace_gram J n K.
Proof.
  unfold trace_gram. apply rsum_nonneg. intros r _.
  apply rsum_nonneg. intros j _. apply Rle_0_sqr.
Qed.

Lemma trace_gram_pos (J n : nat) (K : nat -> nat -> R) :
  0 < trace_gram J n K <->
  exists j r, (j < J)%nat /\ (r < n)%nat /\ K j r <> 0.
Proof.
  unfold trace_gram. split.
  - intros S. apply rsum_pos_term in S.
    + destruct S as (r & Hr & S). apply rsum_pos_term in S.
      * destruct S as (j & Hj & S). exists j, r. repeat split; try assumption.
        intros Z. rewrite Z in S. simpl in S. lra.
      * intros j _. apply Rle_0_sqr.
    + intros r _. apply rsum_nonneg. intros j _. apply Rle_0_sqr.
  - intros (j & r & Hj & Hr & N). apply rsum_pos.
    + intros r' _. apply rsum_nonneg. intros j' _. apply Rle_0_sqr.
    + exists r. split; [exact Hr |]. apply rsum_pos.
      * intros j' _. apply Rle_0_sqr.
      * exists j. split; [exact Hj |]. now apply Rsqr_pos_lt.
Qed.

(** X5.  Over the reals and with a rank of one at least, the step size is
    never negative, and it is positive exactly when [kr_product] has a
    nonzero entry; then, with [bsum >= 0], [rho + bsum] is positive. *)
Theorem step_size_sign (tu kr factor0 : ndarray R) (bsum : R) (su : setup R) :
  admm_setup tu kr factor0 bsum = Ok su ->
  (1 <= ncols factor0)%nat ->
  0 <= rho su /\
  (0 < rho su <->
   exists j r, (j < nrows kr)%nat /\ (r < ncols kr)%nat /\ item kr j r <> 0) /\
  (0 <= bsum ->
   (exists j r, (j < nrows kr)%nat /\ (r < ncols kr)%nat /\ item kr j r <> 0) ->
   0 < rho su + bsum).
Proof.
  intros E HR. apply admm_setup_Ok in E.
  destruct E as (G & Lm & Fm & EG & _ & _ & ->). simpl.
  rewrite (trace_of_gram kr G EG).
  set (t := trace_gram (nrows kr) (ncols kr) (item kr)).
  assert (Pn : 0 < INR (ncols factor0)) by (apply lt_0_INR; lia).
  assert (Tn : 0 <= t) by apply trace_gram_nonneg.
  assert (Pos : 0 < t / INR (ncols factor0) <-> 0 < t).
  { split; intros P.
    - destruct (Rle_lt_or_eq_dec 0 t Tn) as [Q | Q]; [exact Q |].
      rewrite <- Q in P. unfold Rdiv in P. rewrite Rmult_0_l in P. lra.
    - now apply Rdiv_lt_0_compat. }
  split; [| split].
  - destruct (Rle_lt_or_eq_dec 0 t Tn) as [Q | Q].
    + apply Rlt_le. now apply Pos.
    + rewrite <- Q. unfold Rdiv. rewrite Rmult_0_l. lra.
  - rewrite Pos. apply trace_gram_pos.
  - intros Hb Nz. apply trace_gram_pos in Nz. apply Pos in Nz. lra.
Qed.

End RealFacts.

(** The 2 by 1 Khatri-Rao product with entries 1 and 2. *)
Lemma step_size_sign_witness :
  exists su : setup R,
    admm_setup (col2 3%R 4%R) (col2 1%R 2%R) (mat11 0%R) 0%R = Ok su /\
    (0 < rho su)%R.
Proof.
  eexists. split; [reflexivity |].
  match goal with
  | |- (0 < rho ?s)%R =>
      destruct (step_size_sign (col2 3%R 4%R) (col2 1%R 2%R) (mat11 0%R) 0%R s)
        as (_ & Pos & _)
  end.
  - reflexivity.
  - simpl. lia.
  - apply Pos. exists 0, 0. simpl. repeat split; try lia. lra.
Defined.

Section RidgeFacts.

Context {T : Type} `{Scalar T}.

Variable la_inv : ndarray T -> outcome (ndarray T).
Variable proximal_update_admm :
  ndarray T -> ndarray T -> T -> string -> list (string * T) -> outcome (ndarray T).

Hypothesis inv_shape : inv_keeps_shape la_inv.

(** The estimate of a pass is the product of the inverse with the
    right-hand side, whose entries are these. *)
Lemma pass_estimate (self : CPDADMM T) (su : setup T) (bsum : T) (v : vars T)
    (p : pass T) (I R : nat) :
  setup_shapes I R su -> vars_shapes I R v ->
  admm_iter la_inv proximal_update_admm self su bsum v = Ok p ->
  exists L_inv rhs,
    la_inv (L su) = Ok L_inv /\ shape L_inv = (R, R) /\
    (forall m i, m < R -> i < I ->
       item rhs m i =
       sadd (sadd (item (F su) m i)
                  (smul (rho su) (sadd (item (v_factor v) i m)
                                       (item (v_dual_var v) i m))))
            (smul bsum (item (factor_conv su) i m))) /\
    (forall i k, i < I -> k < R ->
       item (p_factor_t p) i k =
       sum_upto R (fun m => smul (item L_inv k m) (item rhs m i))).
Proof.
  intros (SL & SF & SC) (Sf & Sd) E. apply admm_iter_Ok in E.
  destruct E as (L_inv & fd & rhs1 & rhs & prod & factor' & dsum & dual_var'
                 & pdiff & ddiff & EI & Efd & Er1 & Er & Ep & _ & _ & _
                 & _ & _ & ->).
  simpl.
  pose proof (inv_shape _ _ EI) as SLi. rewrite SL in SLi.
  destruct (broadcast2_same_shape _ _ _ _ _ _ Sf Sd Efd) as [Sfd Ifd].
  assert (St1 : shape (scalar_mul (rho su) (np_T fd)) = (R, I))
    by (rewrite shape_scalar_mul; now apply shape_np_T).
  destruct (broadcast2_same_shape _ _ _ _ _ _ SF St1 Er1) as [Sr1 Ir1].
  assert (St2 : shape (scalar_mul bsum (np_T (factor_conv su))) = (R, I))
    by (rewrite shape_scalar_mul; now apply shape_np_T).
  destruct (broadcast2_same_shape _ _ _ _ _ _ Sr1 St2 Er) as [Sr Ir].
  pose proof (matmul_Ok _ _ _ Ep) as [_ Dp].
  exists L_inv, rhs. split; [exact EI |]. split; [exact SLi |]. split.
  - intros m i Hm Hi. rewrite Ir, Ir1 by assumption. simpl. now rewrite Ifd.
  - intros i k Hi Hk. rewrite Dp. simpl.
    assert (CL : ncols L_inv = R) by (unfold shape in SLi; congruence).
    now rewrite CL.
Qed.

End RidgeFacts.

Section NormalEquations.

Local Open Scope R_scope.

Variable la_inv : ndarray R -> outcome (ndarray R).
Variable proximal_update_admm :
  ndarray R -> ndarray R -> R -> string -> list (string * R) -> outcome (ndarray R).

Hypothesis inv_shape : inv_keeps_shape la_inv.

(** X7.  Over the reals, when what [la.inv] returns for the system matrix
    is its inverse, the estimate [factor_t] of a pass solves the normal
    equations of the ridge problem:
    [L factor_t^T = F + rho (factor + dual_var)^T + bsum factor_conv^T]. *)
Theorem ridge_update_solves_normal_equations (self : CPDADMM R) (su : setup R)
    (bsum : R) (v : vars R) (p : pass R) (I n : nat) :
  setup_shapes I n su -> vars_shapes I n v ->
  admm_iter la_inv proximal_update_admm self su bsum v = Ok p ->
  (forall L_inv, la_inv (L su) = Ok L_inv -> inverse_of n (L su) L_inv) ->
  forall r i, (r < n)%nat -> (i < I)%nat ->
    sum_upto n (fun k => item (L su) r k * item (p_factor_t p) i k) =
    item (F su) r i
    + rho su * (item (v_factor v) i r + item (v_dual_var v) i r)
    + bsum * item (factor_conv su) i r.
Proof.
  intros Ss Sv E Inv r i Hr Hi.
  destruct (pass_estimate la_inv proximal_update_admm inv_shape
              self su bsum v p I n Ss Sv E)
    as (L_inv & rhs & EI & SLi & Irhs & Iest).
  specialize (Inv L_inv EI).
  transitivity (item rhs r i); [| rewrite (Irhs r i Hr Hi); reflexivity].
  transitivity
    (sum_upto n (fun k => sum_upto n (fun m =>
       (item (L su) r k * item L_inv k m) * item rhs m i))).
  { apply sum_upto_ext. intros k Hk. rewrite (Iest i k Hi Hk).
    rewrite <- rsum_scal. apply sum_upto_ext. intros m _. simpl. lra. }
  rewrite rsum_swap.
  transitivity (sum_upto n (fun m => (if r =? m then 1 else 0) * item rhs m i)).
  { apply sum_upto_ext. intros m Hm. rewrite rsum_scal_r.
    now rewrite (Inv r m Hr Hm). }
  exact (rsum_delta n r (fun m => item rhs m i) Hr).
Qed.

End NormalEquations.

(** [kr_product = [[1]]], so [L = [[2]]] and its inverse is [[1/2]]: the
    estimate solves [2 x = 0 + 1 (3 + 5)]. *)
Lemma ridge_update_solves_normal_equations_witness :
  exists (su : setup R) (p : pass R),
    admm_setup (mat11 0%R) (mat11 1%R) (mat11 3%R) 0%R = Ok su /\
    admm_iter inv_real prox_identity (solver_real 0%R 1) su 0%R
      (Vars (mat11 3%R) (mat11 5%R) 0) = Ok p /\
    sum_upto 1 (fun k => (item (L su) 0 k * item (p_factor_t p) 0 k)%R) =
    (item (F su) 0 0 + rho su * (3 + 5) + 0 * 3)%R.
Proof.
  eexists. eexists. split; [reflexivity |].
  match goal with
  | |- admm_iter _ _ ?self ?su ?b ?v = Ok ?p /\ _ =>
      assert (E : admm_iter inv_real prox_identity self su b v = Ok p)
  end.
  { unfold admm_iter, inv_real, inv_cofactor. simpl.
    unfold Rzerob. destruct (Req_dec_T _ 0) as [Z0 | _].
    - exfalso. unfold np_trace, alt_sign in Z0. simpl in Z0. lra.
    - reflexivity. }
  split; [exact E |].
  match type of E with
  | admm_iter _ _ ?self ?su ?b ?v = Ok ?p =>
      pose proof (ridge_update_solves_normal_equations inv_real prox_identity
                    (inv_cofactor_shape _) self su b v p 1 1) as N
  end.
  specialize (N ltac:(repeat split) ltac:(repeat split) E).
  match type of N with
  | (forall L_inv, ?lhs = Ok L_inv -> _) -> _ =>
      assert (Inv : forall L_inv, lhs = Ok L_inv ->
                    item L_inv 0 0 = (1 / 2)%R)
  end.
  { intros L_inv EL. unfold inv_real, inv_cofactor in EL. simpl in EL.
    unfold Rzerob in EL. destruct (Req_dec_T _ 0) as [Z0 | _].
    - discriminate.
    - injection EL as <-. unfold np_trace, alt_sign. simpl. lra. }
  specialize (N (fun L_inv EL i j Hi Hj => ltac:(
    assert (i = 0%nat) by lia; assert (j = 0%nat) by lia; subst;
    simpl; rewrite (Inv L_inv EL); unfold np_trace, alt_sign; simpl; lra)) 0%nat 0%nat
    ltac:(lia) ltac:(lia)).
  exact N.
Defined.

(** ** Degenerate ranks *)

Section DegenerateRanks.

(** X6.  A rank of zero is not refused: with a factor and a [kr_product] of
    no column the set-up returns, the step size is the NaN of [0.0 / 0], and
    [L] is 0 by 0. *)
Theorem rank_zero_step_size_is_nan (tu kr factor0 : ndarray float) (bsum : float) :
  ncols factor0 = 0 -> ncols kr = 0 -> nrows tu = nrows kr ->
  exists su : setup float,
    admm_setup tu kr factor0 bsum = Ok su /\
    rho su = nan /\
    shape (L su) = (0, 0) /\
    shape (F su) = (0, ncols tu).
Proof.
  intros Rf Rk Jt. unfold admm_setup.
  destruct (matmul_agree (np_T kr) kr) as (G & EG); [reflexivity |].
  rewrite EG. cbn [bind].
  pose proof (matmul_Ok _ _ _ EG) as [_ DG]. simpl in DG. rewrite Rk in DG.
  assert (SG : shape G = (0, 0)) by (rewrite DG; reflexivity).
  assert (TG : np_trace G = 0%float) by (rewrite DG; reflexivity).
  rewrite Rf, TG.
  destruct (broadcast2_same sadd G
              (scalar_mul (sadd (sdiv 0%float (s_of_nat 0)) bsum) (np_eye 0))
              0 0 SG eq_refl) as (Lm & EL & SL & _).
  unfold np_add. rewrite EL. cbn [bind].
  destruct (matmul_agree (np_T kr) tu) as (Fm & EF); [simpl; congruence |].
  rewrite EF. cbn [bind].
  pose proof (matmul_Ok _ _ _ EF) as [_ DF].
  eexists. split; [reflexivity |]. simpl.
  split; [reflexivity |]. split; [exact SL |].
  rewrite DF. unfold shape. simpl. now rewrite Rk.
Qed.

End DegenerateRanks.

(** Arrays with two rows and no column. *)
Lemma rank_zero_step_size_is_nan_witness :
  exists su : setup float,
    admm_setup (col2 3%float 4%float) (of_rows 2 0 [[]; []]) (of_rows 1 0 [[]])
      0%float = Ok su /\
    rho su = nan.
Proof.
  destruct (rank_zero_step_size_is_nan
              (col2 3%float 4%float) (of_rows 2 0 [[]; []]) (of_rows 1 0 [[]])
              0%float) as (su & Es & Er & _); try reflexivity.
  exists su. split; [exact Es | exact Er].
Defined.

Section SingleColumn.

Context {T : Type} `{Scalar T}.

(** X8.  A [kr_product] of one column is accepted with a factor of any
    rank [R]: broadcasting stretches the 1 by 1 Gram matrix, so the set-up
    returns an [R] by [R] matrix [L] in which the one Gram entry is added to
    every entry, on and off the diagonal, and a one-row [F]. *)
Theorem single_column_kr_is_broadcast (tu kr factor0 : ndarray T) (bsum : T) :
  ncols kr = 1 -> nrows tu = nrows kr ->
  exists su : setup T,
    admm_setup tu kr factor0 bsum = Ok su /\
    shape (kr_hadamard su) = (1, 1) /\
    shape (L su) = (ncols factor0, ncols factor0) /\
    shape (F su) = (1, ncols tu) /\
    forall i j, i < ncols factor0 -> j < ncols factor0 ->
      item (L su) i j =
      sadd (item (kr_hadamard su) 0 0)
           (smul (sadd (rho su) bsum) (if i =? j then s1 else s0)).
Proof.
  intros Rk Jt. unfold admm_setup.
  destruct (matmul_agree (np_T kr) kr) as (G & EG); [reflexivity |].
  rewrite EG. cbn [bind].
  pose proof (matmul_Ok _ _ _ EG) as [_ DG]. simpl in DG. rewrite Rk in DG.
  assert (NG : nrows G = 1) by (rewrite DG; reflexivity).
  assert (CG : ncols G = 1) by (rewrite DG; reflexivity).
  set (n := ncols factor0).
  set (c := sadd (sdiv (np_trace G) (s_of_nat n)) bsum).
  assert (B1 : bdim 1 n = Some n).
  { unfold bdim. destruct (Nat.eqb_spec 1 n) as [<- | _]; reflexivity. }
  unfold np_add, broadcast2. simpl nrows. simpl ncols.
  rewrite NG, CG, B1. cbn [bind].
  destruct (matmul_agree (np_T kr) tu) as (Fm & EF); [simpl; congruence |].
  rewrite EF. cbn [bind].
  pose proof (matmul_Ok _ _ _ EF) as [_ DF].
  eexists. split; [reflexivity |]. simpl.
  split; [unfold shape; congruence |]. split; [reflexivity |]. split.
  - rewrite DF. unfold shape. simpl. now rewrite Rk.
  - intros i j Hi Hj. unfold bidx at 1 2. simpl.
    rewrite !bidx_lt by assumption. reflexivity.
Qed.

End SingleColumn.

(** One column in [kr_product], two in the factor: [L] is 2 by 2 and its
    off-diagonal entries are the Gram entry. *)
Lemma single_column_kr_is_broadcast_witness :
  exists su : setup float,
    admm_setup (col2 3%float 4%float) (col2 1%float 2%float)
      (row2 7%float 8%float) 0%float = Ok su /\
    shape (L su) = (2, 2) /\
    item (L su) 0 1 = 5%float.
Proof.
  destruct (single_column_kr_is_broadcast
              (col2 3%float 4%float) (col2 1%float 2%float)
              (row2 7%float 8%float) 0%float)
    as (su & Es & _ & SL & _ & IL); try reflexivity.
  exists su. split; [exact Es |]. split; [exact SL |].
  rewrite (IL 0 1) by (simpl; lia).
  vm_compute in Es. injection Es as <-. vm_compute. reflexivity.
Defined.

(** ** Residuals are never negative, at binary64 *)

Section FloatSigns.

Lemma round_aux_plus (m e : Z) (l : location) :
  sf_plus (binary_round_aux prec emax false m e l).
Proof.
  unfold binary_round_aux.
  destruct (shr_fexp prec emax m e l) as [mrs' e'].
  destruct (shr_fexp prec emax _ e' loc_Exact) as [mrs'' e''].
  destruct (shr_m mrs''); simpl; try exact I.
  destruct (_ <=? _)%Z; exact I.
Qed.

Lemma round_plus (m : positive) (e : Z) :
  sf_plus (binary_round prec emax false m e).
Proof.
  unfold binary_round. destruct (shl_align m e _) as [mz ez].
  apply round_aux_plus.
Qed.

Lemma SF64mul_self_plus (x : spec_float) : sf_plus (SF64mul x x).
Proof.
  unfold SF64mul, SFmul. destruct x as [[|] | [|] | | [|] m e]; simpl; try exact I;
    apply round_aux_plus.
Qed.

Lemma SF64add_plus (x y : spec_float) :
  sf_plus x -> sf_plus y -> sf_plus (SF64add x y).
Proof.
  unfold SF64add, SFadd.
  destruct x as [[|] | [|] | | [|] mx ex], y as [[|] | [|] | | [|] my ey];
    simpl; intros Px Py; try contradiction; try exact I.
  apply round_plus.
Qed.

Lemma SF64sqrt_plus (x : spec_float) : sf_plus x -> sf_plus (SF64sqrt x).
Proof.
  unfold SF64sqrt, SFsqrt.
  destruct x as [[|] | [|] | | [|] m e]; simpl; intros P; try contradiction;
    try exact I.
  destruct (SFsqrt_core_binary prec emax (Z.pos m) e) as [[mz ez] lz].
  apply round_aux_plus.
Qed.

Lemma SF64div_plus (x y : spec_float) :
  sf_plus x -> sf_plus y -> sf_plus (SF64div x y).
Proof.
  unfold SF64div, SFdiv.
  destruct x as [[|] | [|] | | [|] mx ex], y as [[|] | [|] | | [|] my ey];
    simpl; intros Px Py; try contradiction; try exact I.
  destruct (SFdiv_core_binary prec emax (Z.pos mx) ex (Z.pos my) ey)
    as [[mz ez] lz].
  apply round_aux_plus.
Qed.

(** What is not below zero is below nothing that zero is not below. *)
Lemma SFltb_plus (x t : spec_float) :
  sf_plus x -> SFltb (S754_zero false) t = false -> SFltb x t = false.
Proof.
  unfold SFltb.
  destruct x as [[|] | [|] | | [|] mx ex], t as [[|] | [|] | | [|] mt et];
    simpl; intros Px Pt; try contradiction; try reflexivity; try discriminate.
Qed.

Lemma sum_squares_plus (a : ndarray float) : sf_plus (Prim2SF (sum_squares a)).
Proof.
  unfold sum_squares. generalize (nrows a * ncols a). intros n.
  induction n as [| n IH]; simpl; [exact I |].
  rewrite add_spec, mul_spec.
  apply SF64add_plus; [exact IH | apply SF64mul_self_plus].
Qed.

Lemma la_norm_plus (a : ndarray float) : sf_plus (Prim2SF (la_norm a)).
Proof.
  unfold la_norm. simpl. rewrite sqrt_spec.
  apply SF64sqrt_plus, sum_squares_plus.
Qed.

(** A quotient of two norms is below no tolerance that is not positive. *)
Lemma norm_quotient_not_below (a b : ndarray float) (tol : float) :
  (0 <? tol)%float = false ->
  (la_norm a / la_norm b <? tol)%float = false.
Proof.
  intros Pt. rewrite ltb_spec in Pt. rewrite ltb_spec, div_spec.
  apply SFltb_plus; [| exact Pt].
  apply SF64div_plus; apply la_norm_plus.
Qed.

End FloatSigns.

Section NoConvergence.

Variable la_inv : ndarray float -> outcome (ndarray float).
Variable proximal_update_admm :
  ndarray float -> ndarray float -> float -> string -> list (string * float) ->
  outcome (ndarray float).

Local Notation "'iter'" := (admm_iter la_inv proximal_update_admm).
Local Notation "'loop'" := (admm_loop la_inv proximal_update_admm).
Local Notation "'pass_no'" := (nth_pass la_inv proximal_update_admm).

(** The pass a numbered pass returns was returned by the body. *)
Lemma nth_pass_last (n : nat) (self : CPDADMM float) (su : setup float)
    (bsum : float) (v : vars float) (p : pass float) :
  pass_no n self su bsum v = Ok p -> exists v', iter self su bsum v' = Ok p.
Proof.
  revert v. induction n as [| n IH]; intros v E.
  - now exists v.
  - simpl in E. apply bind_Ok in E. destruct E as (q & _ & E). exact (IH _ E).
Qed.

Lemma pass_residuals_not_below (self : CPDADMM float) (su : setup float)
    (bsum : float) (v : vars float) (p : pass float) (tol : float) :
  (0 <? tol)%float = false ->
  iter self su bsum v = Ok p ->
  (prim_res p <? tol)%float = false /\ (dual_res p <? tol)%float = false.
Proof.
  intros Pt E. apply admm_iter_Ok in E.
  destruct E as (L_inv & fd & rhs1 & rhs & prod & factor' & dsum & dual_var'
                 & pdiff & ddiff & _ & _ & _ & _ & _ & _ & _ & _ & _ & _ & ->).
  cbn [prim_res dual_res].
  split; exact (norm_quotient_not_below _ _ tol Pt).
Qed.

(** X2.  At binary64 no residual of a pass is negative.  So with a
    tolerance that is not positive (zero, negative, or NaN) neither
    criterion of convergence holds at any pass, the exit is by the budget
    alone, and a call that returns has made exactly [max(1, n_iters)]
    passes. *)
Theorem nonpositive_tolerance_never_converges (self : CPDADMM float)
    (su : setup float) (bsum : float) :
  (0 <? tol_error self)%float = false ->
  (forall (v : vars float) (p : pass float),
     iter self su bsum v = Ok p ->
     (prim_res p <? 0)%float = false /\ (dual_res p <? 0)%float = false /\
     stop_criter1 self p = false /\ stop_criter2 self p = false /\
     stop self p = stop_criter3 self p) /\
  (forall (fuel : nat) (factor0 dual_var0 : ndarray float) (p : pass float),
     loop fuel self su bsum (Vars factor0 dual_var0 0) = Ok p ->
     v_itr (p_vars p) = max_passes self).
Proof.
  intros Pt.
  assert (Crit : forall v p, iter self su bsum v = Ok p ->
                   stop self p = stop_criter3 self p).
  { intros v p E.
    destruct (pass_residuals_not_below self su bsum v p _ Pt E) as [A _].
    unfold stop.
    change (stop_criter1 self p) with (prim_res p <? tol_error self)%float.
    now rewrite A. }
  split.
  - intros v p E.
    destruct (pass_residuals_not_below self su bsum v p 0%float eq_refl E)
      as [A B].
    destruct (pass_residuals_not_below self su bsum v p _ Pt E) as [C D].
    repeat split; try assumption. exact (Crit v p E).
  - intros fuel factor0 dual_var0 p E. unfold max_passes.
    apply loop_returns_first_stop in E.
    destruct E as (n & _ & En & Sn & Before).
    pose proof (nth_pass_counter _ _ _ _ _ _ _ _ En) as Ec. simpl in Ec.
    destruct (nth_pass_last _ _ _ _ _ _ En) as (v' & Ev').
    rewrite (Crit v' p Ev') in Sn.
    unfold stop_criter3 in Sn. apply Z.leb_le in Sn.
    destruct n as [| n]; [lia |].
    destruct (Before n) as (q & Eq & Sq); [lia |].
    pose proof (nth_pass_counter _ _ _ _ _ _ _ _ Eq) as Ec'. simpl in Ec'.
    destruct (nth_pass_last _ _ _ _ _ _ Eq) as (v'' & Ev'').
    rewrite (Crit v'' q Ev'') in Sq.
    unfold stop_criter3 in Sq. apply Z.leb_gt in Sq. lia.
Qed.

End NoConvergence.

(** A tolerance of [-1] and a budget of two: two passes, though the primal
    residual of the no-op constraint is zero at each. *)
Lemma nonpositive_tolerance_never_converges_witness :
  exists (su : setup float) (p : pass float),
    admm_setup (col2 3%float 4%float) (col2 1%float 2%float) (mat11 7%float)
      0%float = Ok su /\
    admm_loop inv_float prox_identity 5 (solver_float (-1)%float 2) su 0%float
      (Vars (mat11 7%float) (mat11 1%float) 0) = Ok p /\
    v_itr (p_vars p) = 2%Z.
Proof.
  eexists. eexists.
  split; [vm_compute; reflexivity |].
  match goal with
  | |- admm_loop _ _ ?fuel ?self ?su ?b (Vars ?f ?d _) = Ok ?p /\ _ =>
      assert (E : admm_loop inv_float prox_identity fuel self su b (Vars f d 0)
                  = Ok p) by (vm_compute; reflexivity);
      split; [exact E |];
      destruct (nonpositive_tolerance_never_converges inv_float prox_identity
                  self su b eq_refl) as (_ & Count);
      exact (Count fuel f d p E)
  end.
Defined.

(** ** The no-op constraint over the reals *)

Section NoConstraint.

Local Open Scope R_scope.

Variable la_inv : ndarray R -> outcome (ndarray R).
Variable proximal_update_admm :
  ndarray R -> ndarray R -> R -> string -> list (string * R) -> outcome (ndarray R).

Hypothesis inv_shape : inv_keeps_shape la_inv.

Lemma la_norm_of_zeros (a : ndarray R) (I n : nat) :
  shape a = (I, n) ->
  (forall i j, (i < I)%nat -> (j < n)%nat -> item a i j = 0) ->
  la_norm a = 0.
Proof.
  intros S Z. rewrite (la_norm_frobenius a I n (fun _ _ => 0) S Z).
  unfold frobenius. simpl.
  rewrite (sum_upto_ext _ _ (fun _ => 0)) by (intros; simpl; lra).
  rewrite rsum_zero. apply sqrt_0.
Qed.

(** X9.  Over the reals, for a solver whose dispatcher returns its estimate
    as it is (no constraint): a pass returns the ridge estimate as the new
    factor, leaves every entry of the dual variable as it was, and its
    primal residual is zero when the new factor is not the zero matrix. *)
Theorem no_constraint_keeps_dual (self : CPDADMM R) (su : setup R) (bsum : R)
    (v : vars R) (p : pass R) (I n : nat) :
  (forall x d r,
     proximal_update_admm x d r (constraint self) (hyperparams self) = Ok x) ->
  setup_shapes I n su -> vars_shapes I n v ->
  admm_iter la_inv proximal_update_admm self su bsum v = Ok p ->
  v_factor (p_vars p) = p_factor_t p /\
  (forall i j, (i < I)%nat -> (j < n)%nat ->
     item (v_dual_var (p_vars p)) i j = item (v_dual_var v) i j) /\
  (la_norm (v_factor (p_vars p)) <> 0 -> prim_res p = 0).
Proof.
  intros Id (SL & SF & SC) (Sf & Sd) E. apply admm_iter_Ok in E.
  destruct E as (L_inv & fd & rhs1 & rhs & prod & factor' & dsum & dual_var'
                 & pdiff & ddiff & EI & Efd & Er1 & Er & Ep & Ex & Eds & Edu
                 & Epd & Edd & ->).
  cbn [p_vars v_factor v_dual_var p_factor_t prim_res].
  rewrite Id in Ex. injection Ex as <-.
  pose proof (inv_shape _ _ EI) as SLi. rewrite SL in SLi.
  destruct (broadcast2_same_shape _ _ _ _ _ _ Sf Sd Efd) as [Sfd _].
  assert (St1 : shape (scalar_mul (rho su) (np_T fd)) = (n, I))
    by (rewrite shape_scalar_mul; now apply shape_np_T).
  destruct (broadcast2_same_shape _ _ _ _ _ _ SF St1 Er1) as [Sr1 _].
  assert (St2 : shape (scalar_mul bsum (np_T (factor_conv su))) = (n, I))
    by (rewrite shape_scalar_mul; now apply shape_np_T).
  destruct (broadcast2_same_shape _ _ _ _ _ _ Sr1 St2 Er) as [Sr _].
  pose proof (matmul_Ok _ _ _ Ep) as [_ Dp].
  assert (St : shape (np_T prod) = (I, n)).
  { rewrite Dp. unfold shape in *. simpl. congruence. }
  destruct (broadcast2_same_shape _ _ _ _ _ _ Sd St Eds) as [Sds Ids].
  destruct (broadcast2_same_shape _ _ _ _ _ _ Sds St Edu) as [Sdu Idu].
  destruct (broadcast2_same_shape _ _ _ _ _ _ St St Epd) as [Spd Ipd].
  split; [reflexivity |]. split.
  - intros i j Hi Hj. rewrite Idu, Ids by assumption. simpl. lra.
  - intros _.
    rewrite (la_norm_of_zeros pdiff I n Spd).
    + exact (Rmult_0_l _).
    + intros i j Hi Hj. rewrite Ipd by assumption. simpl. lra.
Qed.

End NoConstraint.

(** [L = [[2]]], factor 3 and dual variable 5: the dual variable is 5 after
    the pass. *)
Lemma no_constraint_keeps_dual_witness :
  exists (su : setup R) (p : pass R),
    admm_setup (mat11 0%R) (mat11 1%R) (mat11 3%R) 0%R = Ok su /\
    admm_iter inv_real prox_identity (solver_real 0%R 1) su 0%R
      (Vars (mat11 3%R) (mat11 5%R) 0) = Ok p /\
    item (v_dual_var (p_vars p)) 0 0 = 5%R.
Proof.
  eexists. eexists. split; [reflexivity |].
  match goal with
  | |- admm_iter _ _ ?self ?su ?b ?v = Ok ?p /\ _ =>
      assert (E : admm_iter inv_real prox_identity self su b v = Ok p)
  end.
  { unfold admm_iter, inv_real, inv_cofactor. simpl.
    unfold Rzerob. destruct (Req_dec_T _ 0) as [Z0 | _].
    - exfalso. unfold np_trace, alt_sign in Z0. simpl in Z0. lra.
    - reflexivity. }
  split; [exact E |].
  match type of E with
  | admm_iter _ _ ?self ?su ?b ?v = Ok ?p =>
      destruct (no_constraint_keeps_dual inv_real prox_identity
                  (inv_cofactor_shape _) self su b v p 1 1)
        as (_ & Keep & _)
  end.
  - intros x d r. reflexivity.
  - repeat split.
  - repeat split.
  - exact E.
  - exact (Keep 0%nat 0%nat ltac:(lia) ltac:(lia)).
Defined.
